(** * Mastering chain of the AI DAW backend (src/backend/main.py)

    A shallow embedding of the DSP functions of [main.py]
    ([_to_float32_audio], [_highpass], [_soft_limiter], [_true_peak_guard],
    [master_chain]) and of the [/master] endpoint, with the properties the
    specification states about them.

    Numbers.  A NumPy / Python float is modelled by [fnum]: a real number or
    one of the IEEE special values +inf, -inf, NaN.  Arithmetic on finite
    values is exact real arithmetic: rounding to float32/float64, overflow
    of a finite result and the sign of zero are not modelled.  The special
    values follow the IEEE rules NumPy applies (inf - inf = NaN,
    0 * inf = NaN, comparisons with NaN are false, ...).  A Python-level
    float division raises ZeroDivisionError on a zero divisor, a NumPy
    division does not; the two are kept apart ([py_div] and [fdiv]).

    Exceptions.  A function that can raise returns [option]; [None] is the
    propagated exception. *)

From Stdlib Require Import String Ascii.
From Stdlib Require Import Reals Lra Lia ZArith List Bool.
Import ListNotations.
Local Open Scope R_scope.

(** ** Floating-point values with the IEEE special values *)

Inductive fnum : Type :=
| Fin (r : R)
| PInf
| NInf
| NaN.

Definition is_finite (x : fnum) : Prop :=
  match x with Fin _ => True | _ => False end.

Definition is_nan (x : fnum) : Prop :=
  match x with NaN => True | _ => False end.

(** The infinity carrying the sign of [a]; NaN when [a] is zero. *)
Definition signed_inf (a : R) : fnum :=
  if Rlt_dec 0 a then PInf else if Rlt_dec a 0 then NInf else NaN.


Definition fadd (x y : fnum) : fnum :=
  match x, y with
  | NaN, _ | _, NaN => NaN
  | Fin a, Fin b => Fin (a + b)
  | PInf, NInf | NInf, PInf => NaN
  | PInf, _ | _, PInf => PInf
  | NInf, _ | _, NInf => NInf
  end.

Definition fsub (x y : fnum) : fnum :=
  match x, y with
  | NaN, _ | _, NaN => NaN
  | Fin a, Fin b => Fin (a - b)
  | PInf, PInf | NInf, NInf => NaN
  | PInf, _ | _, NInf => PInf
  | NInf, _ | _, PInf => NInf
  end.

Definition fmul (x y : fnum) : fnum :=
  match x, y with
  | NaN, _ | _, NaN => NaN
  | Fin a, Fin b => Fin (a * b)
  | Fin a, PInf | PInf, Fin a => signed_inf a
  | Fin a, NInf | NInf, Fin a => signed_inf (- a)
  | PInf, PInf | NInf, NInf => PInf
  | PInf, NInf | NInf, PInf => NInf
  end.

(** NumPy division: a zero divisor gives an infinity or NaN, no exception. *)
Definition fdiv (x y : fnum) : fnum :=
  match x, y with
  | NaN, _ | _, NaN => NaN
  | Fin a, Fin b => if Req_dec_T b 0 then signed_inf a else Fin (a / b)
  | Fin _, PInf | Fin _, NInf => Fin 0
  | PInf, Fin b => if Rlt_dec b 0 then NInf else PInf
  | NInf, Fin b => if Rlt_dec b 0 then PInf else NInf
  | PInf, _ | NInf, _ => NaN
  end.

(** Python float division: ZeroDivisionError on a zero divisor. *)
Definition py_div (x y : fnum) : option fnum :=
  match y with
  | Fin b => if Req_dec_T b 0 then None else Some (fdiv x y)
  | _ => Some (fdiv x y)
  end.

(** [10.0 ** x] *)
Definition pow10 (x : fnum) : fnum :=
  match x with
  | Fin a => Fin (Rpower 10 a)
  | PInf => PInf
  | NInf => Fin 0
  | NaN => NaN
  end.

(** [np.tanh] *)
Definition ftanh (x : fnum) : fnum :=
  match x with
  | Fin a => Fin (tanh a)
  | PInf => Fin 1
  | NInf => Fin (-1)
  | NaN => NaN
  end.

(** [np.abs] *)
Definition fabs (x : fnum) : fnum :=
  match x with
  | Fin a => Fin (Rabs a)
  | PInf | NInf => PInf
  | NaN => NaN
  end.

(** [x <= y] and [x > y]; every comparison with NaN is false. *)
Definition fle (x y : fnum) : bool :=
  match x, y with
  | NaN, _ | _, NaN => false
  | Fin a, Fin b => if Rle_dec a b then true else false
  | NInf, _ => true
  | _, PInf => true
  | _, _ => false
  end.

Definition fgt (x y : fnum) : bool :=
  match x, y with
  | NaN, _ | _, NaN => false
  | Fin a, Fin b => if Rlt_dec b a then true else false
  | _, PInf => false
  | NInf, _ => false
  | PInf, _ => true
  | Fin _, NInf => true
  end.

(** The binary step of [np.max]: NaN propagates. *)
Definition fmax (x y : fnum) : fnum :=
  match x, y with
  | NaN, _ | _, NaN => NaN
  | _, _ => if fgt y x then y else x
  end.

(** ** Exceptions *)

Definition bind {A B : Type} (m : option A) (k : A -> option B) : option B :=
  match m with
  | Some a => k a
  | None => None
  end.

Notation "x <- m ;; k" := (bind m (fun x => k))
  (at level 61, m at next level, right associativity).

(** ** Arrays

    [sf.read(..., always_2d=False)] yields an array of shape [(samples,)] or
    [(samples, channels)]; a 2-D array is kept as the list of its frames
    (rows) together with the number of columns of its shape. *)

Inductive ndarray (A : Type) : Type :=
| Arr1 (xs : list A)
| Arr2 (channels : nat) (frames : list (list A)).

Arguments Arr1 {A} xs.
Arguments Arr2 {A} channels frames.

Definition amap {A B : Type} (f : A -> B) (a : ndarray A) : ndarray B :=
  match a with
  | Arr1 xs => Arr1 (map f xs)
  | Arr2 c frames => Arr2 c (map (map f) frames)
  end.

(** [a.shape] *)
Definition shape {A : Type} (a : ndarray A) : list nat :=
  match a with
  | Arr1 xs => [length xs]
  | Arr2 c frames => [length frames; c]
  end.

(** [a.size] *)
Definition size {A : Type} (a : ndarray A) : nat :=
  fold_right Nat.mul 1%nat (shape a).

(** The elements in C order. *)
Definition flatten {A : Type} (a : ndarray A) : list A :=
  match a with
  | Arr1 xs => xs
  | Arr2 _ frames => concat frames
  end.

(** Every row of a 2-D array has as many entries as the shape says. *)
Definition well_formed {A : Type} (a : ndarray A) : Prop :=
  match a with
  | Arr1 _ => True
  | Arr2 c frames => Forall (fun fr => length fr = c) frames
  end.

(** [frames[:, ch]] *)
Definition column (ch : nat) (frames : list (list fnum)) : list fnum :=
  map (fun fr => nth ch fr (Fin 0)) frames.

Fixpoint set_nth {A : Type} (i : nat) (v : A) (l : list A) : list A :=
  match l, i with
  | [], _ => []
  | _ :: t, O => v :: t
  | h :: t, S j => h :: set_nth j v t
  end.

(** [out[:, ch] = ys] *)
Fixpoint set_column (ch : nat) (ys : list fnum) (out : list (list fnum))
  : list (list fnum) :=
  match out, ys with
  | fr :: out', y :: ys' => set_nth ch y fr :: set_column ch ys' out'
  | _, _ => out
  end.

(** [np.zeros_like] on the rows of a 2-D array *)
Definition zeros_like (frames : list (list fnum)) : list (list fnum) :=
  map (map (fun _ => Fin 0)) frames.

(** [np.max] of a non-empty sequence; ValueError on an empty one. *)
Definition np_max (l : list fnum) : option fnum :=
  match l with
  | [] => None
  | x :: t => Some (fold_left fmax t x)
  end.

(** ** Sample normalizer: [_to_float32_audio] *)

Inductive int_width : Type := W8 | W16 | W32 | W64.

Definition bits (w : int_width) : Z :=
  match w with W8 => 8 | W16 => 16 | W32 => 32 | W64 => 64 end.

(** The decoded data with its dtype: kind "i" ([signed = true]), kind "u"
    ([signed = false]) or a floating dtype. *)
Inductive raw_audio : Type :=
| IntAudio (signed : bool) (w : int_width) (a : ndarray Z)
| FloatAudio (a : ndarray fnum).

(** [np.iinfo(dtype).max] and [.min] *)
Definition iinfo_max (signed : bool) (w : int_width) : Z :=
  if signed then (2 ^ (bits w - 1) - 1)%Z else (2 ^ bits w - 1)%Z.

Definition iinfo_min (signed : bool) (w : int_width) : Z :=
  if signed then (- 2 ^ (bits w - 1))%Z else 0%Z.

Definition _to_float32_audio (data : raw_audio) : ndarray fnum :=
  match data with
  | IntAudio s w a =>
      let max_val := iinfo_max s w in
      amap (fun v => fdiv (Fin (IZR v)) (Fin (IZR max_val))) a
  | FloatAudio a => a
  end.

(** ** High-pass filter: [_highpass] *)

(** The loop body of the 1-D case, carrying [x_prev] and [y_prev]. *)
Fixpoint hp_loop (a x_prev y_prev : fnum) (xs : list fnum) : list fnum :=
  match xs with
  | [] => []
  | x :: rest =>
      let y_i := fmul a (fsub (fadd y_prev x) x_prev) in
      y_i :: hp_loop a x y_i rest
  end.

(** [dt], [rc] and [a]; each division is a Python float division. *)
Definition hp_coeff (sr : Z) (cutoff_hz : fnum) : option fnum :=
  dt <- py_div (Fin 1) (Fin (IZR sr)) ;;
  rc <- py_div (Fin 1) (fmul (fmul (Fin 2) (Fin PI)) cutoff_hz) ;;
  py_div rc (fadd rc dt).

(** The recursive call on one column, a 1-D array: it computes the
    coefficient again and runs the loop. *)
Definition _highpass_1d (xs : list fnum) (sr : Z) (cutoff_hz : fnum)
  : option (list fnum) :=
  a <- hp_coeff sr cutoff_hz ;;
  Some (hp_loop a (Fin 0) (Fin 0) xs).

(** [for ch in range(audio.shape[1]): out[:, ch] = _highpass(audio[:, ch], ...)] *)
Fixpoint hp_channels (frames : list (list fnum)) (sr : Z) (cutoff_hz : fnum)
  (chs : list nat) (out : list (list fnum)) : option (list (list fnum)) :=
  match chs with
  | [] => Some out
  | ch :: rest =>
      y <- _highpass_1d (column ch frames) sr cutoff_hz ;;
      hp_channels frames sr cutoff_hz rest (set_column ch y out)
  end.

Definition _highpass (audio : ndarray fnum) (sr : Z) (cutoff_hz : fnum)
  : option (ndarray fnum) :=
  a <- hp_coeff sr cutoff_hz ;;
  match audio with
  | Arr1 xs => Some (Arr1 (hp_loop a (Fin 0) (Fin 0) xs))
  | Arr2 c frames =>
      out <- hp_channels frames sr cutoff_hz (seq 0 c) (zeros_like frames) ;;
      Some (Arr2 c out)
  end.

(** ** Soft limiter: [_soft_limiter] *)

Definition default_threshold : fnum := Fin (95 / 100).

Definition limit_sample (threshold x : fnum) : fnum :=
  fmul (ftanh (fdiv x threshold)) threshold.

Definition _soft_limiter (audio : ndarray fnum) (threshold : fnum)
  : ndarray fnum :=
  let threshold :=
    if fle threshold (Fin 0) || fgt threshold (Fin 1)
    then default_threshold else threshold in
  amap (limit_sample threshold) audio.

(** ** Peak guard: [_true_peak_guard] *)

(** [float(np.max(np.abs(audio))) if audio.size else 0.0] *)
Definition peak_of (audio : ndarray fnum) : option fnum :=
  if Nat.eqb (size audio) 0 then Some (Fin 0)
  else np_max (flatten (amap fabs audio)).

Definition _true_peak_guard (audio : ndarray fnum) (target_peak_db : fnum)
  : option (ndarray fnum) :=
  peak <- peak_of audio ;;
  if fle peak (Fin 0) then Some audio
  else
    let target := pow10 (fdiv target_peak_db (Fin 20)) in
    if fgt peak target
    then scale <- py_div target peak ;;
         Some (amap (fun x => fmul x scale) audio)
    else Some audio.

(** ** The chain: [master_chain] *)

(** [audio[:, :2]] when there are more than two channels. *)
Definition audio_for_lufs (audio : ndarray fnum) : ndarray fnum :=
  match audio with
  | Arr2 c frames =>
      if Nat.ltb 2 c then Arr2 2 (map (firstn 2) frames) else audio
  | Arr1 _ => audio
  end.

Definition gain_db (target_lufs loudness : fnum) : fnum :=
  fsub target_lufs loudness.

Definition gain (target_lufs loudness : fnum) : fnum :=
  pow10 (fdiv (gain_db target_lufs loudness) (Fin 20)).

Section Chain.

(** [pyln.Meter(sr).integrated_loudness]: the loudness meter is the
    pyloudnorm library, outside the repository.  It returns a float
    (-inf for silence) or raises. *)
Variable integrated_loudness : Z -> ndarray fnum -> option fnum.

Definition master_chain (audio : raw_audio) (sr : Z) (target_lufs : fnum)
  : option (ndarray fnum) :=
  let audio := _to_float32_audio audio in
  audio <- _highpass audio sr (Fin 80) ;;
  loudness <- integrated_loudness sr (audio_for_lufs audio) ;;
  let audio := amap (fun x => fmul x (gain target_lufs loudness)) audio in
  let audio := _soft_limiter audio default_threshold in
  _true_peak_guard audio (Fin (-1)).

End Chain.

(** ** The endpoint: [master] *)

Definition bytes : Type := list Byte.byte.

(** [str.lower] on ASCII letters *)
Definition lower_ascii (c : ascii) : ascii :=
  let n := nat_of_ascii c in
  if andb (Nat.leb 65 n) (Nat.leb n 90) then ascii_of_nat (n + 32) else c.

Fixpoint lower (s : string) : string :=
  match s with
  | EmptyString => EmptyString
  | String c s' => String (lower_ascii c) (lower s')
  end.

Inductive response : Type :=
| JSONResponse (content : list (string * string)) (status_code : Z)
| Response (content : bytes) (media_type : string)
    (headers : list (string * string)).

Section Endpoint.

Variable integrated_loudness : Z -> ndarray fnum -> option fnum.

(** The collaborators of the endpoint, all outside the repository.
    [sf_read] and [mp3_export] are called inside [try]: [inl e] is the
    exception caught there, with its text.  [sf_write] is called outside
    any [try]: [None] is an exception that propagates. *)
Variable sf_read : bytes -> string + (raw_audio * Z).
Variable sf_write : ndarray fnum -> Z -> option bytes.
Variable mp3_export : bytes -> string + bytes.

Definition master (raw : bytes) (format : string) (target_lufs : fnum)
  : option response :=
  match sf_read raw with
  | inl e =>
      Some (JSONResponse
              [("error"%string,
                ("Could not read audio. Upload WAV. Details: " ++ e)%string)]
              400)
  | inr (data, sr) =>
      mastered <- master_chain integrated_loudness data sr target_lufs ;;
      wav_bytes <- sf_write mastered sr ;;
      if String.eqb (lower format) "mp3"
      then
        match mp3_export wav_bytes with
        | inr mp3_bytes =>
            Some (Response mp3_bytes "audio/mpeg"
                    [("Content-Disposition"%string,
                      "attachment; filename=mastered.mp3"%string)])
        | inl e =>
            Some (JSONResponse
                    [("error"%string,
                      "MP3 export failed (likely ffmpeg missing). Use format=wav or install ffmpeg."%string);
                     ("details"%string, e)]
                    400)
        end
      else
        Some (Response wav_bytes "audio/wav"
                [("Content-Disposition"%string,
                  "attachment; filename=mastered.wav"%string)])
  end.

End Endpoint.

(** ** Predicates used in the statements *)

(** The recurrence of the specification, [y[n] = a (y[n-1] + x[n] - x[n-1])]
    with [x[-1] = y[-1] = 0], on sequences of equal length. *)
Definition prev (l : list fnum) (n : nat) : fnum :=
  match n with
  | O => Fin 0
  | S m => nth m l (Fin 0)
  end.

Definition hp_recurrence (a : fnum) (xs ys : list fnum) : Prop :=
  length ys = length xs /\
  forall n, (n < length xs)%nat ->
    nth n ys (Fin 0) =
    fmul a (fsub (fadd (prev ys n) (nth n xs (Fin 0))) (prev xs n)).

(** Every sample of the buffer is a finite number. *)
Definition all_finite (a : ndarray fnum) : Prop :=
  Forall is_finite (flatten a).

(** Every sample of the buffer is zero. *)
Definition silent (a : ndarray fnum) : Prop :=
  Forall (fun x => x = Fin 0) (flatten a).

(** [peak] bounds the magnitude of every sample of the buffer. *)
Definition peak_at_most (a : ndarray fnum) (bound : R) : Prop :=
  Forall (fun x => exists r, x = Fin r /\ Rabs r <= bound) (flatten a).

(** The coefficient of the filter as a real number. *)
Definition hp_a (sr : Z) (cutoff_hz : R) : R :=
  let dt := 1 / IZR sr in
  let rc := 1 / (2 * PI * cutoff_hz) in
  rc / (rc + dt).

(** The column loop of [_highpass] with the coefficient already known. *)
Definition hp_fill (a : fnum) (frames : list (list fnum)) (chs : list nat)
    (out : list (list fnum)) : list (list fnum) :=
  fold_left
    (fun o ch => set_column ch (hp_loop a (Fin 0) (Fin 0) (column ch frames)) o)
    chs out.

Definition frame_count {A : Type} (a : ndarray A) : nat :=
  match a with
  | Arr1 xs => length xs
  | Arr2 _ frames => length frames
  end.

Definition channel_count {A : Type} (a : ndarray A) : nat :=
  match a with
  | Arr1 _ => 1
  | Arr2 c _ => c
  end.

Definition raw_shape (data : raw_audio) : list nat :=
  match data with
  | IntAudio _ _ a => shape a
  | FloatAudio a => shape a
  end.

Definition raw_well_formed (data : raw_audio) : Prop :=
  match data with
  | IntAudio _ _ a => well_formed a
  | FloatAudio a => well_formed a
  end.

(** A stage that returns on every well-formed buffer, with a well-formed
    buffer of the same shape. *)
Definition preserves_shape (stage : ndarray fnum -> option (ndarray fnum))
  : Prop :=
  forall a, well_formed a ->
    exists out, stage a = Some out /\ shape out = shape a /\ well_formed out.

(** ** Concrete runs

    Half a second of digital silence at 44.1 kHz, as a mono float buffer,
    and collaborators for it: a meter that reports the silence sentinel, a
    decoder that yields the buffer, a writer with one byte per sample, an
    MP3 export that passes the bytes on. *)
Definition half_second : nat := Z.to_nat 22050.

Definition silence_buffer : ndarray fnum := Arr1 (repeat (Fin 0) half_second).

Definition nan_buffer : ndarray fnum := Arr1 (repeat NaN half_second).

Definition silence_meter (sr : Z) (a : ndarray fnum) : option fnum :=
  Some NInf.

Definition read_silence (raw : bytes) : string + (raw_audio * Z) :=
  inr (FloatAudio silence_buffer, 44100%Z).

Definition write_one_byte_each (a : ndarray fnum) (sr : Z) : option bytes :=
  Some (map (fun _ => Byte.x00) (flatten a)).

Definition export_same (wav : bytes) : string + bytes := inr wav.

(** The loop of [_highpass] on finite values: the same steps as
    [hp_loop], on real numbers. *)
Fixpoint hp_loop_R (a x_prev y_prev : R) (xs : list R) : list R :=
  match xs with
  | [] => []
  | x :: rest =>
      let y_i := a * (y_prev + x - x_prev) in
      y_i :: hp_loop_R a x y_i rest
  end.

(** [k * xs + zs], sample by sample. *)
Definition superpose (k : R) (xs zs : list R) : list R :=
  map (fun p => k * fst p + snd p) (combine xs zs).

(** No sample of the buffer is NaN. *)
Definition no_nan (a : ndarray fnum) : Prop :=
  Forall (fun x => x <> NaN) (flatten a).

(** * Lemmas on the number model *)

Lemma fdiv_fin (a b : R) : b <> 0 -> fdiv (Fin a) (Fin b) = Fin (a / b).
Proof.
  intro Hb. unfold fdiv. destruct (Req_dec_T b 0) as [E | _]; [contradiction | reflexivity].
Qed.

Lemma py_div_fin (a b : R) : b <> 0 -> py_div (Fin a) (Fin b) = Some (Fin (a / b)).
Proof.
  intro Hb. unfold py_div.
  destruct (Req_dec_T b 0) as [E | _]; [contradiction |].
  now rewrite fdiv_fin.
Qed.

Lemma fle_fin (a b : R) : fle (Fin a) (Fin b) = true <-> a <= b.
Proof.
  unfold fle. destruct (Rle_dec a b); split; intros; auto; discriminate.
Qed.

Lemma fgt_fin (a b : R) : fgt (Fin a) (Fin b) = true <-> b < a.
Proof.
  unfold fgt. destruct (Rlt_dec b a); split; intros; auto; discriminate.
Qed.

Lemma signed_inf_pos (a : R) : 0 < a -> signed_inf a = PInf.
Proof.
  intro H. unfold signed_inf. destruct (Rlt_dec 0 a); [reflexivity | contradiction].
Qed.

Lemma signed_inf_zero : signed_inf 0 = NaN.
Proof.
  unfold signed_inf.
  destruct (Rlt_dec 0 0) as [H | _]; [lra |].
  destruct (Rlt_dec 0 0) as [H | _]; [lra | reflexivity].
Qed.

(** * Hyperbolic tangent *)

Lemma cosh_pos (x : R) : 0 < cosh x.
Proof.
  unfold cosh. pose proof (exp_pos x). pose proof (exp_pos (- x)). lra.
Qed.


Lemma tanh_0 : tanh 0 = 0.
Proof.
  unfold tanh. rewrite sinh_0. unfold Rdiv. ring.
Qed.

Lemma tanh_bounds (x : R) : -1 < tanh x < 1.
Proof.
  pose proof (cosh_pos x) as Hc.
  assert (Hs : - cosh x < sinh x < cosh x).
  { unfold sinh, cosh in *.
    pose proof (exp_pos x). pose proof (exp_pos (- x)). lra. }
  unfold tanh. split.
  - apply Rmult_lt_reg_r with (cosh x); [exact Hc |].
    unfold Rdiv. rewrite Rmult_assoc, Rinv_l by lra. lra.
  - apply Rmult_lt_reg_r with (cosh x); [exact Hc |].
    unfold Rdiv. rewrite Rmult_assoc, Rinv_l by lra. lra.
Qed.






(** * The soft limiter *)

Lemma limit_sample_fin (t x : R) :
  0 < t -> limit_sample (Fin t) (Fin x) = Fin (tanh (x / t) * t).
Proof.
  intro Ht. unfold limit_sample. rewrite fdiv_fin by lra. reflexivity.
Qed.

Lemma threshold_in_range (t : R) :
  0 < t <= 1 -> fle (Fin t) (Fin 0) || fgt (Fin t) (Fin 1) = false.
Proof.
  intros [H0 H1]. apply orb_false_iff. split.
  - destruct (fle (Fin t) (Fin 0)) eqn:E; [apply fle_fin in E; lra | reflexivity].
  - destruct (fgt (Fin t) (Fin 1)) eqn:E; [apply fgt_fin in E; lra | reflexivity].
Qed.

Lemma soft_limiter_in_range (audio : ndarray fnum) (t : R) :
  0 < t <= 1 -> _soft_limiter audio (Fin t) = amap (limit_sample (Fin t)) audio.
Proof.
  intro Ht. unfold _soft_limiter. now rewrite threshold_in_range.
Qed.

Lemma limit_value_bound (t u : R) : 0 < t -> Rabs (tanh u * t) < t.
Proof.
  intro Ht. rewrite Rabs_mult, (Rabs_right t) by lra.
  assert (Rabs (tanh u) < 1).
  { apply Rabs_def1; pose proof (tanh_bounds u); lra. }
  rewrite <- (Rmult_1_l t) at 2. apply Rmult_lt_compat_r; assumption.
Qed.



(** C6: a threshold that is zero, negative or above 1 raises nothing; the
    limiter then works with 0.95, so its output is the output for 0.95. *)
Theorem soft_limiter_threshold_fallback (audio : ndarray fnum) (t : R) :
  t <= 0 \/ 1 < t ->
  _soft_limiter audio (Fin t) = _soft_limiter audio (Fin (95 / 100)) /\
  _soft_limiter audio (Fin t) = amap (limit_sample (Fin (95 / 100))) audio.
Proof.
  intro Ht.
  assert (E : fle (Fin t) (Fin 0) || fgt (Fin t) (Fin 1) = true).
  { apply orb_true_iff. destruct Ht as [H | H].
    - left. now apply fle_fin.
    - right. now apply fgt_fin. }
  assert (E' : _soft_limiter audio (Fin t)
               = amap (limit_sample (Fin (95 / 100))) audio).
  { unfold _soft_limiter. rewrite E. reflexivity. }
  split; [| exact E'].
  rewrite E'. symmetry. apply soft_limiter_in_range. lra.
Qed.

Lemma soft_limiter_threshold_fallback_witness :
  (2 <= 0 \/ 1 < 2) /\
  _soft_limiter (Arr1 [Fin 3]) (Fin 2)
  = _soft_limiter (Arr1 [Fin 3]) (Fin (95 / 100)).
Proof.
  split; [right; lra |].
  apply (soft_limiter_threshold_fallback (Arr1 [Fin 3]) 2). right. lra.
Defined.



(** * The sample normalizer *)

Lemma to_float32_int_sample (s : bool) (w : int_width) (xs : list Z) :
  _to_float32_audio (IntAudio s w (Arr1 xs))
  = Arr1 (map (fun v => Fin (IZR v / IZR (iinfo_max s w))) xs).
Proof.
  simpl. f_equal. apply map_ext. intro v. apply fdiv_fin.
  apply not_0_IZR. destruct s, w; discriminate.
Qed.

(** C8: integer input is divided by [iinfo(dtype).max] and floating input
    passes through; the most negative sample of a signed encoding (here
    -32768 of int16) lands below -1, outside the range the docstring of
    [_to_float32_audio] promises. *)
Theorem to_float32_signed_min_below_range :
  iinfo_min true W16 = (-32768)%Z /\
  exists r,
    _to_float32_audio (IntAudio true W16 (Arr1 [(-32768)%Z])) = Arr1 [Fin r] /\
    r = -32768 / 32767 /\
    r < -1.
Proof.
  split; [reflexivity |].
  exists (-32768 / 32767). split; [| split; [reflexivity | lra]].
  rewrite to_float32_int_sample. reflexivity.
Qed.

(** Away from that one value the integer branch does stay in [-1, 1]. *)
Lemma to_float32_int_in_range (s : bool) (w : int_width) (v : Z) :
  (- iinfo_max s w <= v <= iinfo_max s w)%Z ->
  -1 <= IZR v / IZR (iinfo_max s w) <= 1.
Proof.
  intros [Hlo Hhi].
  assert (Hm : 0 < IZR (iinfo_max s w)).
  { apply IZR_lt. destruct s, w; reflexivity. }
  apply IZR_le in Hlo, Hhi. rewrite opp_IZR in Hlo.
  split.
  - apply Rmult_le_reg_r with (IZR (iinfo_max s w)); [exact Hm |].
    unfold Rdiv. rewrite Rmult_assoc, Rinv_l by lra. lra.
  - apply Rmult_le_reg_r with (IZR (iinfo_max s w)); [exact Hm |].
    unfold Rdiv. rewrite Rmult_assoc, Rinv_l by lra. lra.
Qed.

Lemma to_float32_float_unchanged (a : ndarray fnum) :
  _to_float32_audio (FloatAudio a) = a.
Proof. reflexivity. Qed.

(** * Rows and columns *)

Lemma length_set_nth {A : Type} (i : nat) (v : A) (l : list A) :
  length (set_nth i v l) = length l.
Proof.
  revert i. induction l as [| h t IH]; intros [| j]; simpl; auto.
Qed.

Lemma nth_set_nth_same {A : Type} (i : nat) (v d : A) (l : list A) :
  (i < length l)%nat -> nth i (set_nth i v l) d = v.
Proof.
  revert i. induction l as [| h t IH]; intros [| j] H; simpl in *; try lia; auto.
  apply IH. lia.
Qed.

Lemma nth_set_nth_other {A : Type} (i j : nat) (v d : A) (l : list A) :
  i <> j -> nth j (set_nth i v l) d = nth j l d.
Proof.
  revert i j.
  induction l as [| h t IH]; intros [| i] [| j] H; simpl; auto; contradiction.
Qed.

Lemma length_set_column (ch : nat) (ys : list fnum) (out : list (list fnum)) :
  length (set_column ch ys out) = length out.
Proof.
  revert ys. induction out as [| fr out IH]; intros [| y ys]; simpl; auto.
Qed.

Lemma set_column_rows (c ch : nat) (ys : list fnum) (out : list (list fnum)) :
  Forall (fun fr => length fr = c) out ->
  Forall (fun fr => length fr = c) (set_column ch ys out).
Proof.
  revert ys. induction out as [| fr out IH]; intros [| y ys] H; simpl; auto.
  inversion H; subst. constructor.
  - apply length_set_nth.
  - now apply IH.
Qed.

Lemma column_set_column_same (c ch : nat) (ys : list fnum) (out : list (list fnum)) :
  Forall (fun fr => length fr = c) out -> (ch < c)%nat ->
  length ys = length out ->
  column ch (set_column ch ys out) = ys.
Proof.
  intros Hrows Hch. revert ys.
  induction out as [| fr out IH]; intros [| y ys] Hlen; simpl in *;
    try discriminate; auto.
  inversion Hrows; subst. f_equal.
  - apply nth_set_nth_same. lia.
  - apply IH; [assumption | lia].
Qed.

Lemma column_set_column_other (ch ch' : nat) (ys : list fnum)
    (out : list (list fnum)) :
  ch <> ch' -> column ch' (set_column ch ys out) = column ch' out.
Proof.
  intro Hne. revert ys.
  induction out as [| fr out IH]; intros [| y ys]; simpl; auto.
  f_equal; [now apply nth_set_nth_other | apply IH].
Qed.

Lemma length_column (ch : nat) (frames : list (list fnum)) :
  length (column ch frames) = length frames.
Proof. apply length_map. Qed.

(** Two arrays of the same shape with the same columns are equal. *)
Lemma rows_ext (c : nat) (f g : list (list fnum)) :
  Forall (fun fr => length fr = c) f ->
  Forall (fun fr => length fr = c) g ->
  length f = length g ->
  (forall ch, (ch < c)%nat -> column ch f = column ch g) ->
  f = g.
Proof.
  intros Hf. revert g.
  induction Hf as [| fr f Hfr Hf IH]; intros [| gr g] Hg Hlen Hcol;
    simpl in *; try discriminate; auto.
  inversion Hg; subst. f_equal.
  - apply (nth_ext _ _ (Fin 0) (Fin 0)); [congruence |].
    intros ch Hch. specialize (Hcol ch Hch). now inversion Hcol.
  - apply IH; [assumption | lia |].
    intros ch Hch. specialize (Hcol ch Hch). now inversion Hcol.
Qed.

(** * The high-pass filter *)

Lemma hp_loop_length (a xp yp : fnum) (xs : list fnum) :
  length (hp_loop a xp yp xs) = length xs.
Proof.
  revert xp yp. induction xs as [| x xs IH]; intros; simpl; auto.
Qed.

(** One step of the loop, at any position and for any initial state. *)
Lemma hp_loop_nth (a : fnum) (xs : list fnum) :
  forall (xp yp : fnum) (n : nat), (n < length xs)%nat ->
    nth n (hp_loop a xp yp xs) (Fin 0) =
    fmul a
      (fsub
         (fadd
            match n with
            | O => yp
            | S m => nth m (hp_loop a xp yp xs) (Fin 0)
            end
            (nth n xs (Fin 0)))
         match n with
         | O => xp
         | S m => nth m xs (Fin 0)
         end).
Proof.
  induction xs as [| x xs IH]; intros xp yp n Hn; simpl in Hn; [lia |].
  destruct n as [| m]; [reflexivity |].
  cbn [hp_loop nth]. rewrite IH by lia.
  destruct m; reflexivity.
Qed.

Lemma hp_loop_recurrence (a : fnum) (xs : list fnum) :
  hp_recurrence a xs (hp_loop a (Fin 0) (Fin 0) xs).
Proof.
  split; [apply hp_loop_length |].
  intros n Hn. rewrite hp_loop_nth by exact Hn. destruct n; reflexivity.
Qed.

Lemma hp_coeff_positive (sr : Z) (f : R) :
  (0 < sr)%Z -> 0 < f -> hp_coeff sr (Fin f) = Some (Fin (hp_a sr f)).
Proof.
  intros Hsr Hf. apply IZR_lt in Hsr. pose proof PI_RGT_0 as Hpi.
  assert (Hden : 0 < 2 * PI * f).
  { apply Rmult_lt_0_compat; [lra | exact Hf]. }
  assert (Hdt : 0 < 1 / IZR sr) by (apply Rdiv_lt_0_compat; lra).
  assert (Hrc : 0 < 1 / (2 * PI * f)) by (apply Rdiv_lt_0_compat; lra).
  unfold hp_coeff, hp_a. cbn [fmul].
  rewrite py_div_fin by lra. cbn [bind].
  rewrite py_div_fin by lra. cbn [bind fadd].
  rewrite py_div_fin by lra. reflexivity.
Qed.

Lemma hp_a_range (sr : Z) (f : R) :
  (0 < sr)%Z -> 0 < f -> 0 < hp_a sr f < 1.
Proof.
  intros Hsr Hf. apply IZR_lt in Hsr. pose proof PI_RGT_0 as Hpi.
  assert (Hden : 0 < 2 * PI * f).
  { apply Rmult_lt_0_compat; [lra | exact Hf]. }
  assert (Hdt : 0 < 1 / IZR sr) by (apply Rdiv_lt_0_compat; lra).
  assert (Hrc : 0 < 1 / (2 * PI * f)) by (apply Rdiv_lt_0_compat; lra).
  unfold hp_a. cbv zeta. split.
  - apply Rdiv_lt_0_compat; lra.
  - apply Rmult_lt_reg_r with (1 / (2 * PI * f) + 1 / IZR sr); [lra |].
    unfold Rdiv at 1. rewrite Rmult_assoc, Rinv_l by lra. lra.
Qed.

Lemma hp_channels_fill (frames : list (list fnum)) (sr : Z) (cutoff_hz a : fnum) :
  hp_coeff sr cutoff_hz = Some a ->
  forall chs out,
    hp_channels frames sr cutoff_hz chs out = Some (hp_fill a frames chs out).
Proof.
  intros Ha chs. induction chs as [| ch chs IH]; intro out; [reflexivity |].
  cbn [hp_channels]. unfold _highpass_1d. rewrite Ha. cbn [bind].
  rewrite IH. reflexivity.
Qed.

Lemma hp_fill_length (a : fnum) (frames : list (list fnum)) (chs : list nat) :
  forall out, length (hp_fill a frames chs out) = length out.
Proof.
  induction chs as [| ch chs IH]; intro out; [reflexivity |].
  unfold hp_fill in *. cbn [fold_left]. rewrite IH. apply length_set_column.
Qed.

Lemma hp_fill_rows (c : nat) (a : fnum) (frames : list (list fnum))
    (chs : list nat) :
  forall out, Forall (fun fr => length fr = c) out ->
    Forall (fun fr => length fr = c) (hp_fill a frames chs out).
Proof.
  induction chs as [| ch chs IH]; intros out H; [exact H |].
  unfold hp_fill in *. cbn [fold_left]. apply IH. now apply set_column_rows.
Qed.

Lemma hp_fill_column_untouched (a : fnum) (frames : list (list fnum))
    (chs : list nat) (ch : nat) :
  ~ In ch chs ->
  forall out, column ch (hp_fill a frames chs out) = column ch out.
Proof.
  induction chs as [| c0 chs IH]; intros Hnin out; [reflexivity |].
  unfold hp_fill in *. cbn [fold_left]. rewrite IH.
  - apply column_set_column_other. intro E. apply Hnin. now left.
  - intro H. apply Hnin. now right.
Qed.

Lemma hp_fill_column (c : nat) (a : fnum) (frames : list (list fnum))
    (chs : list nat) (ch : nat) :
  NoDup chs -> In ch chs -> (ch < c)%nat ->
  forall out,
    Forall (fun fr => length fr = c) out -> length out = length frames ->
    column ch (hp_fill a frames chs out)
    = hp_loop a (Fin 0) (Fin 0) (column ch frames).
Proof.
  intros Hnd. induction Hnd as [| c0 chs Hnin Hnd IH];
    intros Hin Hch out Hrows Hlen; [contradiction |].
  unfold hp_fill in *. cbn [fold_left]. destruct Hin as [-> | Hin].
  - fold (hp_fill a frames chs
            (set_column ch (hp_loop a (Fin 0) (Fin 0) (column ch frames)) out)).
    rewrite hp_fill_column_untouched by exact Hnin.
    apply (column_set_column_same c); auto.
    now rewrite hp_loop_length, length_column.
  - apply IH; auto.
    + now apply set_column_rows.
    + now rewrite length_set_column.
Qed.

Lemma zeros_like_rows (c : nat) (frames : list (list fnum)) :
  Forall (fun fr => length fr = c) frames ->
  Forall (fun fr => length fr = c) (zeros_like frames).
Proof.
  intro H. unfold zeros_like. apply Forall_map.
  eapply Forall_impl; [| exact H]. intros fr E. now rewrite length_map.
Qed.

(** The 2-D case, column by column. *)
Lemma highpass_2d (c : nat) (frames : list (list fnum)) (sr : Z)
    (cutoff_hz a : fnum) :
  hp_coeff sr cutoff_hz = Some a ->
  Forall (fun fr => length fr = c) frames ->
  exists out,
    _highpass (Arr2 c frames) sr cutoff_hz = Some (Arr2 c out) /\
    length out = length frames /\
    Forall (fun fr => length fr = c) out /\
    forall ch, (ch < c)%nat ->
      column ch out = hp_loop a (Fin 0) (Fin 0) (column ch frames).
Proof.
  intros Ha Hrows.
  exists (hp_fill a frames (seq 0 c) (zeros_like frames)).
  assert (Hz : length (zeros_like frames) = length frames)
    by apply length_map.
  split; [| split; [| split]].
  - unfold _highpass. rewrite Ha. cbn [bind].
    rewrite (hp_channels_fill _ _ _ a Ha). reflexivity.
  - now rewrite hp_fill_length.
  - apply hp_fill_rows. now apply zeros_like_rows.
  - intros ch Hch. apply (hp_fill_column c); auto.
    + apply seq_NoDup.
    + apply in_seq. lia.
    + now apply zeros_like_rows.
Qed.

Lemma highpass_1d_array (xs : list fnum) (sr : Z) (cutoff_hz a : fnum) :
  hp_coeff sr cutoff_hz = Some a ->
  _highpass (Arr1 xs) sr cutoff_hz = Some (Arr1 (hp_loop a (Fin 0) (Fin 0) xs)).
Proof.
  intro Ha. unfold _highpass. rewrite Ha. reflexivity.
Qed.

(** C3: for a positive sample rate and a positive cutoff the filter returns
    a buffer of the input's shape in which every channel obeys
    [y[n] = a (y[n-1] + x[n] - x[n-1])], [x[-1] = y[-1] = 0], with
    [a = rc/(rc+dt)], [dt = 1/sr], [rc = 1/(2 pi cutoff)]; a channel of the
    output is determined by the same channel of the input alone. *)
Theorem highpass_recurrence (audio : ndarray fnum) (sr : Z) (cutoff_hz : R) :
  (0 < sr)%Z -> 0 < cutoff_hz -> well_formed audio ->
  let dt := 1 / IZR sr in
  let rc := 1 / (2 * PI * cutoff_hz) in
  let a := Fin (rc / (rc + dt)) in
  exists out,
    _highpass audio sr (Fin cutoff_hz) = Some out /\
    shape out = shape audio /\
    well_formed out /\
    match audio, out with
    | Arr1 xs, Arr1 ys => hp_recurrence a xs ys
    | Arr2 c frames, Arr2 _ frames' =>
        forall ch, (ch < c)%nat ->
          hp_recurrence a (column ch frames) (column ch frames')
    | _, _ => False
    end.
Proof.
  intros Hsr Hf Hwf dt rc a.
  pose proof (hp_coeff_positive sr cutoff_hz Hsr Hf) as Ha.
  fold dt rc in Ha. change (Fin (hp_a sr cutoff_hz)) with a in Ha.
  destruct audio as [xs | c frames].
  - exists (Arr1 (hp_loop a (Fin 0) (Fin 0) xs)).
    split; [now apply highpass_1d_array |].
    split; [simpl; now rewrite hp_loop_length |].
    split; [exact I | apply hp_loop_recurrence].
  - destruct (highpass_2d c frames sr (Fin cutoff_hz) a Ha Hwf)
      as [out [Hout [Hlen [Hrows Hcol]]]].
    exists (Arr2 c out).
    split; [exact Hout |]. split; [simpl; now rewrite Hlen |].
    split; [exact Hrows |].
    intros ch Hch. rewrite (Hcol ch Hch). apply hp_loop_recurrence.
Qed.

(** * The peak guard *)

Lemma flatten_amap {A B : Type} (f : A -> B) (a : ndarray A) :
  flatten (amap f a) = map f (flatten a).
Proof.
  destruct a as [xs | c frames]; simpl; [reflexivity |].
  symmetry. apply concat_map.
Qed.

Lemma shape_amap {A B : Type} (f : A -> B) (a : ndarray A) :
  shape (amap f a) = shape a.
Proof.
  destruct a as [xs | c frames]; simpl; now rewrite length_map.
Qed.

Lemma well_formed_amap {A B : Type} (f : A -> B) (a : ndarray A) :
  well_formed a -> well_formed (amap f a).
Proof.
  destruct a as [xs | c frames]; simpl; [auto |].
  intro H. apply Forall_map. eapply Forall_impl; [| exact H].
  intros fr E. now rewrite length_map.
Qed.

Lemma size_flatten {A : Type} (a : ndarray A) :
  well_formed a -> size a = length (flatten a).
Proof.
  destruct a as [xs | c frames]; unfold size; simpl; [lia |].
  intro H. induction H as [| fr frames Hfr H IH]; simpl; [reflexivity |].
  rewrite length_app. lia.
Qed.

Lemma finite_list (l : list fnum) :
  Forall is_finite l -> exists rs, l = map Fin rs.
Proof.
  induction 1 as [| x l Hx H [rs IH]].
  - now exists [].
  - destruct x as [r | | |]; try contradiction.
    exists (r :: rs). simpl. now rewrite IH.
Qed.

Lemma fmax_fin (a b : R) : fmax (Fin a) (Fin b) = Fin (Rmax a b).
Proof.
  unfold fmax, fgt, Rmax.
  destruct (Rlt_dec a b), (Rle_dec a b); try reflexivity; try lra.
  f_equal. lra.
Qed.

Lemma fold_fmax_fin (rs : list R) :
  forall r0, fold_left fmax (map Fin rs) (Fin r0) = Fin (fold_left Rmax rs r0).
Proof.
  induction rs as [| r rs IH]; intro r0; cbn [fold_left map]; [reflexivity |].
  rewrite fmax_fin. apply IH.
Qed.

Lemma fold_Rmax_ge (rs : list R) :
  forall r0, r0 <= fold_left Rmax rs r0 /\
             forall r, In r rs -> r <= fold_left Rmax rs r0.
Proof.
  induction rs as [| r1 rs IH]; intro r0; simpl.
  - split; [lra | contradiction].
  - destruct (IH (Rmax r0 r1)) as [H0 H1].
    pose proof (Rmax_l r0 r1). pose proof (Rmax_r r0 r1).
    split; [lra |]. intros r [<- | Hin]; [lra | now apply H1].
Qed.

Lemma fold_Rmax_in (rs : list R) :
  forall r0, fold_left Rmax rs r0 = r0 \/ In (fold_left Rmax rs r0) rs.
Proof.
  induction rs as [| r1 rs IH]; intro r0; simpl; [now left |].
  destruct (IH (Rmax r0 r1)) as [E | Hin]; [| now right; right].
  rewrite E. unfold Rmax. destruct (Rle_dec r0 r1); [right; now left | now left].
Qed.

(** The peak of a buffer of finite samples: the largest magnitude, and zero
    for an empty buffer. *)
Lemma peak_of_finite (audio : ndarray fnum) :
  well_formed audio -> all_finite audio ->
  exists peak,
    peak_of audio = Some (Fin peak) /\
    0 <= peak /\
    peak_at_most audio peak /\
    (flatten audio = [] -> peak = 0) /\
    (flatten audio <> [] -> exists r, In (Fin r) (flatten audio) /\ Rabs r = peak).
Proof.
  intros Hwf Hfin. unfold all_finite in Hfin.
  destruct (finite_list _ Hfin) as [rs Hrs].
  unfold peak_of, peak_at_most. rewrite (size_flatten _ Hwf), flatten_amap, Hrs.
  destruct rs as [| r0 rs].
  - exists 0. cbn. repeat split; auto; try lra. intro H; now contradiction H.
  - replace (map fabs (map Fin (r0 :: rs))) with (map Fin (map Rabs (r0 :: rs)))
      by (rewrite !map_map; reflexivity).
    cbn [map length Nat.eqb np_max]. rewrite fold_fmax_fin.
    set (p := fold_left Rmax (map Rabs rs) (Rabs r0)).
    destruct (fold_Rmax_ge (map Rabs rs) (Rabs r0)) as [H0 H1]. fold p in H0, H1.
    exists p. split; [reflexivity |].
    split; [pose proof (Rabs_pos r0); lra |].
    split; [| split].
    + constructor; [now exists r0 |].
      apply Forall_map. apply Forall_forall. intros r Hr.
      exists r. split; [reflexivity |]. apply H1. now apply in_map.
    + discriminate.
    + intros _. destruct (fold_Rmax_in (map Rabs rs) (Rabs r0)) as [E | Hin].
      * exists r0. split; [now left | now symmetry].
      * fold p in Hin. apply in_map_iff in Hin as [r [Er Hr]].
        exists r. split; [right; now apply in_map | exact Er].
Qed.

Lemma peak_of_total (audio : ndarray fnum) :
  well_formed audio -> exists p, peak_of audio = Some p.
Proof.
  intro Hwf. unfold peak_of. rewrite (size_flatten _ Hwf), flatten_amap.
  destruct (flatten audio) as [| x l]; simpl; eauto.
Qed.

(** The guard raises on no buffer: the division is reached only with a
    peak that failed [peak <= 0], hence never with a zero peak. *)
Lemma true_peak_guard_total (audio : ndarray fnum) (target_peak_db : fnum) :
  well_formed audio ->
  exists out, _true_peak_guard audio target_peak_db = Some out.
Proof.
  intro Hwf. destruct (peak_of_total audio Hwf) as [p Hp].
  unfold _true_peak_guard. rewrite Hp. cbn [bind].
  destruct (fle p (Fin 0)) eqn:Hle; [eauto |].
  destruct (fgt p _); [| eauto].
  unfold py_div. destruct p as [b | | |]; cbn [bind]; eauto.
  destruct (Req_dec_T b 0) as [E | N]; cbn [bind]; eauto.
  subst b. unfold fle in Hle. destruct (Rle_dec 0 0); [discriminate | lra].
Qed.

Lemma peak_at_most_weaken (audio : ndarray fnum) (p q : R) :
  p <= q -> peak_at_most audio p -> peak_at_most audio q.
Proof.
  intros Hpq H. unfold peak_at_most in *. eapply Forall_impl; [| exact H].
  intros x [r [E Hr]]. exists r. split; [exact E | lra].
Qed.




(** * Shapes through the chain *)

Lemma shape_counts {A B : Type} (a : ndarray A) (b : ndarray B) :
  shape a = shape b ->
  frame_count a = frame_count b /\ channel_count a = channel_count b.
Proof.
  destruct a, b; simpl; intro H; inversion H; auto.
Qed.

Lemma to_float32_shape (data : raw_audio) :
  shape (_to_float32_audio data) = raw_shape data.
Proof.
  destruct data as [s w a | a]; simpl; [apply shape_amap | reflexivity].
Qed.

Lemma to_float32_well_formed (data : raw_audio) :
  raw_well_formed data -> well_formed (_to_float32_audio data).
Proof.
  destruct data as [s w a | a]; simpl; [apply well_formed_amap | auto].
Qed.

Lemma highpass_preserves_shape (sr : Z) (cutoff_hz : R) :
  (0 < sr)%Z -> 0 < cutoff_hz ->
  preserves_shape (fun a => _highpass a sr (Fin cutoff_hz)).
Proof.
  intros Hsr Hf a Hwf.
  pose proof (hp_coeff_positive sr cutoff_hz Hsr Hf) as Ha.
  destruct a as [xs | c frames].
  - exists (Arr1 (hp_loop (Fin (hp_a sr cutoff_hz)) (Fin 0) (Fin 0) xs)).
    split; [now apply highpass_1d_array |].
    split; [simpl; now rewrite hp_loop_length | exact I].
  - destruct (highpass_2d c frames sr (Fin cutoff_hz) _ Ha Hwf)
      as [out [Hout [Hlen [Hrows _]]]].
    exists (Arr2 c out). split; [exact Hout |].
    split; [simpl; now rewrite Hlen | exact Hrows].
Qed.

Lemma gain_preserves_shape (g : fnum) :
  preserves_shape (fun a => Some (amap (fun x => fmul x g) a)).
Proof.
  intros a Hwf. eexists. split; [reflexivity |].
  split; [apply shape_amap | now apply well_formed_amap].
Qed.

Lemma soft_limiter_preserves_shape (t : fnum) :
  preserves_shape (fun a => Some (_soft_limiter a t)).
Proof.
  intros a Hwf. eexists. split; [reflexivity |]. unfold _soft_limiter.
  split; [apply shape_amap | now apply well_formed_amap].
Qed.

Lemma true_peak_guard_cases (audio out : ndarray fnum) (db : fnum) :
  _true_peak_guard audio db = Some out ->
  out = audio \/ exists s, out = amap (fun x => fmul x s) audio.
Proof.
  unfold _true_peak_guard. destruct (peak_of audio) as [p |]; cbn [bind];
    [| discriminate].
  destruct (fle p (Fin 0)); [intro H; inversion H; now left |].
  destruct (fgt p _); [| intro H; inversion H; now left].
  destruct (py_div _ p) as [s |]; cbn [bind]; [| discriminate].
  intro H; inversion H. right. now exists s.
Qed.

Lemma true_peak_guard_preserves_shape (db : fnum) :
  preserves_shape (fun a => _true_peak_guard a db).
Proof.
  intros a Hwf. destruct (true_peak_guard_total a db Hwf) as [out Hout].
  exists out. split; [exact Hout |].
  destruct (true_peak_guard_cases a out db Hout) as [-> | [s ->]].
  - auto.
  - split; [apply shape_amap | now apply well_formed_amap].
Qed.

Section ChainShape.

Variable integrated_loudness : Z -> ndarray fnum -> option fnum.

(** C7: every stage of the chain (normalize, high-pass, gain, soft limit,
    peak guard) returns a buffer of the shape it was given, so a result of
    [master_chain] has the frame count and the channel count of the
    input; the chain does return whenever the loudness meter does. *)
Theorem master_chain_preserves_shape (data : raw_audio) (sr : Z)
    (target_lufs : fnum) :
  (0 < sr)%Z -> raw_well_formed data ->
  shape (_to_float32_audio data) = raw_shape data /\
  preserves_shape (fun a => _highpass a sr (Fin 80)) /\
  (forall g, preserves_shape (fun a => Some (amap (fun x => fmul x g) a))) /\
  (forall t, preserves_shape (fun a => Some (_soft_limiter a t))) /\
  (forall db, preserves_shape (fun a => _true_peak_guard a db)) /\
  (forall out,
     master_chain integrated_loudness data sr target_lufs = Some out ->
     shape out = raw_shape data /\
     frame_count out = frame_count (_to_float32_audio data) /\
     channel_count out = channel_count (_to_float32_audio data)) /\
  exists filtered,
    _highpass (_to_float32_audio data) sr (Fin 80) = Some filtered /\
    forall loudness,
      integrated_loudness sr (audio_for_lufs filtered) = Some loudness ->
      exists out,
        master_chain integrated_loudness data sr target_lufs = Some out.
Proof.
  intros Hsr Hwf.
  assert (Hhp : preserves_shape (fun a => _highpass a sr (Fin 80)))
    by (apply highpass_preserves_shape; [exact Hsr | lra]).
  pose proof (to_float32_well_formed data Hwf) as Hwf0.
  destruct (Hhp _ Hwf0) as [filtered [Hf [Hsf Hwff]]].
  assert (Hchain : forall loudness,
    integrated_loudness sr (audio_for_lufs filtered) = Some loudness ->
    exists out,
      master_chain integrated_loudness data sr target_lufs = Some out /\
      shape out = raw_shape data).
  { intros loudness Hl. unfold master_chain. rewrite Hf. cbn [bind].
    rewrite Hl. cbn [bind].
    destruct (gain_preserves_shape (gain target_lufs loudness) filtered Hwff)
      as [g [Hg [Hsg Hwfg]]]. inversion Hg; subst g. clear Hg.
    destruct (soft_limiter_preserves_shape default_threshold _ Hwfg)
      as [l [Hl' [Hsl Hwfl]]]. inversion Hl'; subst l. clear Hl'.
    destruct (true_peak_guard_preserves_shape (Fin (-1)) _ Hwfl)
      as [out [Hout [Hso _]]].
    exists out. split; [exact Hout |].
    rewrite Hso, Hsl, Hsg, Hsf. apply to_float32_shape. }
  split; [apply to_float32_shape |]. split; [exact Hhp |].
  split; [exact gain_preserves_shape |].
  split; [exact soft_limiter_preserves_shape |].
  split; [exact true_peak_guard_preserves_shape |].
  split.
  - intros out Hout.
    assert (Hs : shape out = raw_shape data).
    { unfold master_chain in Hout. rewrite Hf in Hout. cbn [bind] in Hout.
      destruct (integrated_loudness sr (audio_for_lufs filtered))
        as [loudness |] eqn:Hl; [| discriminate].
      destruct (Hchain loudness eq_refl) as [out' [Hout' Hs']].
      unfold master_chain in Hout'. rewrite Hf in Hout'. cbn [bind] in Hout'.
      rewrite Hl in Hout'. rewrite Hout in Hout'. inversion Hout'. now subst. }
    split; [exact Hs |]. apply shape_counts.
    rewrite Hs. symmetry. apply to_float32_shape.
  - exists filtered. split; [exact Hf |].
    intros loudness Hl. destruct (Hchain loudness Hl) as [out [Hout _]].
    now exists out.
Qed.

End ChainShape.

Lemma master_chain_preserves_shape_witness :
  (0 < 44100)%Z /\
  raw_well_formed (FloatAudio (Arr2 2 [[Fin 1; Fin 0]; [Fin 0; Fin 1]])) /\
  exists out,
    master_chain (fun _ _ => Some (Fin (-20)))
      (FloatAudio (Arr2 2 [[Fin 1; Fin 0]; [Fin 0; Fin 1]])) 44100 (Fin (-14))
    = Some out /\
    shape out = [2%nat; 2%nat].
Proof.
  assert (Hsr : (0 < 44100)%Z) by lia.
  assert (Hwf : raw_well_formed
                  (FloatAudio (Arr2 2 [[Fin 1; Fin 0]; [Fin 0; Fin 1]]))).
  { simpl. repeat constructor. }
  split; [exact Hsr |]. split; [exact Hwf |].
  destruct (master_chain_preserves_shape (fun _ _ => Some (Fin (-20)))
              _ 44100 (Fin (-14)) Hsr Hwf)
    as [_ [_ [_ [_ [_ [Hshape [filtered [_ Hret]]]]]]]].
  destruct (Hret (Fin (-20)) eq_refl) as [out Hout].
  exists out. split; [exact Hout |].
  exact (proj1 (Hshape out Hout)).
Defined.

(** * Loudness is measured on the first two channels *)

Lemma column_firstn (k ch : nat) (frames : list (list fnum)) :
  (ch < k)%nat -> column ch (map (firstn k) frames) = column ch frames.
Proof.
  intro Hch. unfold column. rewrite map_map. apply map_ext. intro fr.
  rewrite nth_firstn. destruct (Nat.ltb_spec ch k); [reflexivity | lia].
Qed.

Lemma firstn_rows (k c : nat) (frames : list (list fnum)) :
  (k <= c)%nat ->
  Forall (fun fr => length fr = c) frames ->
  Forall (fun fr => length fr = k) (map (firstn k) frames).
Proof.
  intros Hk H. apply Forall_map. eapply Forall_impl; [| exact H].
  intros fr E. cbv beta in E. rewrite length_firstn, E. now apply Nat.min_l.
Qed.

(** Filtering commutes with dropping the channels after the first two. *)
Lemma highpass_first_two (c : nat) (frames out : list (list fnum)) (sr : Z)
    (cutoff_hz a : fnum) :
  hp_coeff sr cutoff_hz = Some a ->
  (2 <= c)%nat ->
  Forall (fun fr => length fr = c) frames ->
  _highpass (Arr2 c frames) sr cutoff_hz = Some (Arr2 c out) ->
  _highpass (Arr2 2 (map (firstn 2) frames)) sr cutoff_hz
  = Some (Arr2 2 (map (firstn 2) out)).
Proof.
  intros Ha Hc Hrows Hout.
  destruct (highpass_2d c frames sr cutoff_hz a Ha Hrows)
    as [out' [Hout' [Hlen [Hrows' Hcol]]]].
  rewrite Hout in Hout'. inversion Hout'; subst out'. clear Hout'.
  pose proof (firstn_rows 2 c frames Hc Hrows) as Hrows2.
  destruct (highpass_2d 2 (map (firstn 2) frames) sr cutoff_hz a Ha Hrows2)
    as [out2 [Hout2 [Hlen2 [Hrows2' Hcol2]]]].
  rewrite Hout2. do 2 f_equal.
  apply (rows_ext 2); auto.
  - now apply (firstn_rows 2 c).
  - rewrite Hlen2, !length_map. now symmetry.
  - intros ch Hch. rewrite (Hcol2 ch Hch), !column_firstn by exact Hch.
    symmetry. apply Hcol. lia.
Qed.

Section ChainLoudness.

Variable integrated_loudness : Z -> ndarray fnum -> option fnum.

(** C9: with more than two channels the meter is handed the first two
    columns of the filtered buffer and nothing else; that buffer is the
    filter applied to the first two input channels, so the loudness and
    the gain do not depend on the other channels, while the gain, the
    limiter and the peak guard run on the buffer with all its channels. *)
Theorem loudness_from_first_two_channels (data : raw_audio) (c : nat)
    (frames : list (list fnum)) (sr : Z) (target_lufs : fnum) :
  _to_float32_audio data = Arr2 c frames ->
  (2 < c)%nat -> Forall (fun fr => length fr = c) frames -> (0 < sr)%Z ->
  exists filtered,
    _highpass (Arr2 c frames) sr (Fin 80) = Some (Arr2 c filtered) /\
    audio_for_lufs (Arr2 c filtered) = Arr2 2 (map (firstn 2) filtered) /\
    _highpass (Arr2 2 (map (firstn 2) frames)) sr (Fin 80)
    = Some (Arr2 2 (map (firstn 2) filtered)) /\
    (forall c' frames',
       (2 < c')%nat -> Forall (fun fr => length fr = c') frames' ->
       map (firstn 2) frames' = map (firstn 2) frames ->
       exists filtered',
         _highpass (Arr2 c' frames') sr (Fin 80) = Some (Arr2 c' filtered') /\
         audio_for_lufs (Arr2 c' filtered') = audio_for_lufs (Arr2 c filtered)) /\
    master_chain integrated_loudness data sr target_lufs
    = (loudness <- integrated_loudness sr (Arr2 2 (map (firstn 2) filtered)) ;;
       _true_peak_guard
         (_soft_limiter
            (amap (fun x => fmul x (gain target_lufs loudness))
               (Arr2 c filtered))
            default_threshold)
         (Fin (-1))) /\
    forall out,
      master_chain integrated_loudness data sr target_lufs = Some out ->
      channel_count out = c /\ frame_count out = length frames.
Proof.
  intros Hdata Hc Hrows Hsr.
  assert (Ha : hp_coeff sr (Fin 80) = Some (Fin (hp_a sr 80)))
    by (apply hp_coeff_positive; [exact Hsr | lra]).
  destruct (highpass_2d c frames sr (Fin 80) _ Ha Hrows)
    as [filtered [Hf [Hlen [Hrows' _]]]].
  assert (Hlufs : audio_for_lufs (Arr2 c filtered)
                  = Arr2 2 (map (firstn 2) filtered)).
  { unfold audio_for_lufs. destruct (Nat.ltb_spec 2 c); [reflexivity | lia]. }
  assert (Hchain :
    master_chain integrated_loudness data sr target_lufs
    = (loudness <- integrated_loudness sr (Arr2 2 (map (firstn 2) filtered)) ;;
       _true_peak_guard
         (_soft_limiter
            (amap (fun x => fmul x (gain target_lufs loudness))
               (Arr2 c filtered))
            default_threshold)
         (Fin (-1)))).
  { unfold master_chain. rewrite Hdata, Hf. cbn [bind]. now rewrite Hlufs. }
  exists filtered. split; [exact Hf |]. split; [exact Hlufs |].
  assert (Hfirst : _highpass (Arr2 2 (map (firstn 2) frames)) sr (Fin 80)
                   = Some (Arr2 2 (map (firstn 2) filtered)))
    by (apply (highpass_first_two c _ _ _ _ _ Ha);
        [lia | exact Hrows | exact Hf]).
  split; [exact Hfirst |].
  split.
  { intros c' frames' Hc' Hrows2 Hsame.
    destruct (highpass_2d c' frames' sr (Fin 80) _ Ha Hrows2)
      as [filtered' [Hf' _]].
    exists filtered'. split; [exact Hf' |].
    pose proof (highpass_first_two c' frames' filtered' sr (Fin 80) _ Ha
                  ltac:(lia) Hrows2 Hf') as Hfirst'.
    rewrite Hsame, Hfirst in Hfirst'.
    assert (E : map (firstn 2) filtered = map (firstn 2) filtered')
      by congruence.
    rewrite Hlufs, E. unfold audio_for_lufs.
    destruct (Nat.ltb_spec 2 c'); [reflexivity | lia]. }
  split; [exact Hchain |].
  intros out Hout. rewrite Hchain in Hout.
  destruct (integrated_loudness sr _) as [loudness |]; [| discriminate].
  cbn [bind] in Hout.
  apply true_peak_guard_cases in Hout. unfold _soft_limiter in Hout.
  destruct Hout as [-> | [s ->]]; simpl; rewrite ?length_map; auto.
Qed.

End ChainLoudness.

Lemma loudness_from_first_two_channels_witness :
  _to_float32_audio (FloatAudio (Arr2 3 [[Fin 1; Fin 0; Fin 5]]))
  = Arr2 3 [[Fin 1; Fin 0; Fin 5]] /\
  (2 < 3)%nat /\
  Forall (fun fr => length fr = 3%nat) [[Fin 1; Fin 0; Fin 5]] /\
  (0 < 44100)%Z /\
  exists filtered,
    _highpass (Arr2 3 [[Fin 1; Fin 0; Fin 5]]) 44100 (Fin 80)
    = Some (Arr2 3 filtered) /\
    _highpass (Arr2 2 [[Fin 1; Fin 0]]) 44100 (Fin 80)
    = Some (Arr2 2 (map (firstn 2) filtered)).
Proof.
  assert (H3 : (2 < 3)%nat) by lia.
  assert (Hrows : Forall (fun fr => length fr = 3%nat) [[Fin 1; Fin 0; Fin 5]])
    by (repeat constructor).
  assert (Hsr : (0 < 44100)%Z) by lia.
  split; [reflexivity |]. split; [exact H3 |]. split; [exact Hrows |].
  split; [exact Hsr |].
  destruct (loudness_from_first_two_channels (fun _ _ => Some (Fin (-20)))
              (FloatAudio (Arr2 3 [[Fin 1; Fin 0; Fin 5]])) 3
              [[Fin 1; Fin 0; Fin 5]] 44100 (Fin (-14)) eq_refl H3 Hrows Hsr)
    as [filtered [Hf [_ [Hf2 _]]]].
  exists filtered. split; [exact Hf | exact Hf2].
Defined.

(** * Silence and the gain *)

Lemma amap_fixed (f : fnum -> fnum) (a : ndarray fnum) :
  Forall (fun x => f x = x) (flatten a) -> amap f a = a.
Proof.
  destruct a as [xs | c frames]; simpl; intro H; f_equal.
  - induction H as [| x xs Hx H IH]; simpl; [reflexivity | now rewrite Hx, IH].
  - induction frames as [| fr frames IH]; simpl in *; [reflexivity |].
    apply Forall_app in H as [Hfr H]. f_equal; [| now apply IH].
    clear IH H. induction Hfr as [| x fr Hx H IH]; simpl;
      [reflexivity | now rewrite Hx, IH].
Qed.

Lemma amap_silent (f : fnum -> fnum) (a : ndarray fnum) :
  f (Fin 0) = Fin 0 -> silent a -> amap f a = a.
Proof.
  intros Hf Hs. apply amap_fixed. unfold silent in Hs.
  eapply Forall_impl; [| exact Hs]. intros x ->. exact Hf.
Qed.

Lemma silent_all_finite (a : ndarray fnum) : silent a -> all_finite a.
Proof.
  unfold silent, all_finite. intro H. eapply Forall_impl; [| exact H].
  intros x ->. exact I.
Qed.

Lemma hp_loop_silent (a : R) (xs : list fnum) :
  Forall (fun x => x = Fin 0) xs ->
  hp_loop (Fin a) (Fin 0) (Fin 0) xs = xs.
Proof.
  induction 1 as [| x xs -> H IH]; [reflexivity |].
  cbn [hp_loop fadd fsub fmul].
  replace (a * (0 + 0 - 0)) with 0 by ring. now rewrite IH.
Qed.

Lemma column_silent (ch : nat) (frames : list (list fnum)) :
  Forall (fun x => x = Fin 0) (concat frames) ->
  Forall (fun x => x = Fin 0) (column ch frames).
Proof.
  intro H. unfold column. apply Forall_map. apply Forall_forall.
  intros fr Hfr. destruct (Nat.lt_ge_cases ch (length fr)) as [Hlt | Hge].
  - rewrite Forall_forall in H. apply H. apply in_concat.
    exists fr. split; [exact Hfr | now apply nth_In].
  - now apply nth_overflow.
Qed.

(** The filter leaves a buffer of zeros as it is. *)
Lemma highpass_silent (audio : ndarray fnum) (sr : Z) (cutoff_hz : R) :
  (0 < sr)%Z -> 0 < cutoff_hz -> well_formed audio -> silent audio ->
  _highpass audio sr (Fin cutoff_hz) = Some audio.
Proof.
  intros Hsr Hf Hwf Hs.
  pose proof (hp_coeff_positive sr cutoff_hz Hsr Hf) as Ha.
  destruct audio as [xs | c frames].
  - rewrite (highpass_1d_array _ _ _ _ Ha). now rewrite hp_loop_silent.
  - destruct (highpass_2d c frames sr (Fin cutoff_hz) _ Ha Hwf)
      as [out [Hout [Hlen [Hrows Hcol]]]].
    rewrite Hout. do 2 f_equal. apply (rows_ext c); auto.
    intros ch Hch. rewrite (Hcol ch Hch). apply hp_loop_silent.
    now apply column_silent.
Qed.

Lemma true_peak_guard_silent (audio : ndarray fnum) (db : fnum) :
  well_formed audio -> silent audio -> _true_peak_guard audio db = Some audio.
Proof.
  intros Hwf Hs.
  destruct (peak_of_finite audio Hwf (silent_all_finite _ Hs))
    as [peak [Hpk [_ [_ [Hempty Hattained]]]]].
  assert (Hz : peak = 0).
  { destruct (flatten audio) as [| x l] eqn:E; [now apply Hempty |].
    destruct Hattained as [r [Hin <-]]; [discriminate |].
    unfold silent in Hs. rewrite E in Hs. rewrite Forall_forall in Hs.
    specialize (Hs _ Hin). inversion Hs. apply Rabs_R0. }
  subst peak. unfold _true_peak_guard. rewrite Hpk. cbn [bind].
  assert (E : fle (Fin 0) (Fin 0) = true) by (apply fle_fin; lra).
  now rewrite E.
Qed.

Lemma limit_sample_zero : limit_sample default_threshold (Fin 0) = Fin 0.
Proof.
  unfold default_threshold. rewrite limit_sample_fin by lra. f_equal.
  unfold Rdiv at 1. rewrite Rmult_0_l, tanh_0. ring.
Qed.

Lemma soft_limiter_default (audio : ndarray fnum) :
  _soft_limiter audio default_threshold
  = amap (limit_sample default_threshold) audio.
Proof.
  unfold default_threshold. apply soft_limiter_in_range. lra.
Qed.

Lemma gain_db_sentinel (t : R) : gain_db (Fin t) NInf = PInf.
Proof. reflexivity. Qed.

Lemma gain_sentinel (t : R) : gain (Fin t) NInf = PInf.
Proof.
  unfold gain, gain_db. cbn [fsub fdiv].
  destruct (Rlt_dec 20 0); [lra | reflexivity].
Qed.

Lemma gain_finite (t l : R) :
  gain (Fin t) (Fin l) = Fin (Rpower 10 ((t - l) / 20)).
Proof.
  unfold gain, gain_db. cbn [fsub]. rewrite fdiv_fin by lra. reflexivity.
Qed.

Section ChainGain.

Variable integrated_loudness : Z -> ndarray fnum -> option fnum.

(** The stages after the meter, for a filtered buffer and its loudness. *)
Lemma master_chain_after_meter (data : raw_audio) (sr : Z)
    (target_lufs loudness : fnum) (filtered : ndarray fnum) :
  _highpass (_to_float32_audio data) sr (Fin 80) = Some filtered ->
  integrated_loudness sr (audio_for_lufs filtered) = Some loudness ->
  master_chain integrated_loudness data sr target_lufs
  = _true_peak_guard
      (_soft_limiter
         (amap (fun x => fmul x (gain target_lufs loudness)) filtered)
         default_threshold)
      (Fin (-1)).
Proof.
  intros Hf Hl. unfold master_chain. rewrite Hf. cbn [bind].
  rewrite Hl. reflexivity.
Qed.

(** C1, as the code has it: the chain has no gain ceiling.  The gain in dB
    is [target_lufs - loudness] and the linear gain [10^(gain_db/20)]
    whatever the meter returned; for the -inf sentinel and a finite target
    both are +inf.  With a finite loudness a buffer of zeros comes out as
    the same buffer of zeros. *)
Theorem master_chain_gain_unclamped (data : raw_audio) (sr : Z) (target : R)
    (loudness : fnum) (filtered : ndarray fnum) :
  _highpass (_to_float32_audio data) sr (Fin 80) = Some filtered ->
  integrated_loudness sr (audio_for_lufs filtered) = Some loudness ->
  master_chain integrated_loudness data sr (Fin target)
  = _true_peak_guard
      (_soft_limiter
         (amap (fun x => fmul x (gain (Fin target) loudness)) filtered)
         default_threshold)
      (Fin (-1)) /\
  (loudness = NInf ->
   gain_db (Fin target) loudness = PInf /\
   gain (Fin target) loudness = PInf) /\
  (forall l, loudness = Fin l ->
     gain (Fin target) loudness = Fin (Rpower 10 ((target - l) / 20))) /\
  (forall l, loudness = Fin l ->
     (0 < sr)%Z -> raw_well_formed data -> silent (_to_float32_audio data) ->
     master_chain integrated_loudness data sr (Fin target)
     = Some (_to_float32_audio data)).
Proof.
  intros Hf Hl.
  pose proof (master_chain_after_meter data sr (Fin target) loudness filtered
                Hf Hl) as Hchain.
  split; [exact Hchain |]. split; [| split].
  - intros ->. split; [apply gain_db_sentinel | apply gain_sentinel].
  - intros l ->. apply gain_finite.
  - intros l -> Hsr Hwf Hs. rewrite Hchain.
    pose proof (to_float32_well_formed data Hwf) as Hwf0.
    rewrite (highpass_silent _ sr 80 Hsr ltac:(lra) Hwf0 Hs) in Hf.
    inversion Hf; subst filtered.
    rewrite gain_finite.
    assert (Hg : (fun x => fmul x (Fin (Rpower 10 ((target - l) / 20))))
                   (Fin 0) = Fin 0)
      by (cbn [fmul]; f_equal; ring).
    rewrite (amap_silent _ _ Hg Hs).
    rewrite soft_limiter_default.
    rewrite (amap_silent _ _ limit_sample_zero Hs).
    now apply true_peak_guard_silent.
Qed.

End ChainGain.

(** ** Non-finite gains *)

Lemma amap_ext_in {A B : Type} (f g : A -> B) (a : ndarray A) :
  Forall (fun x => f x = g x) (flatten a) -> amap f a = amap g a.
Proof.
  destruct a as [xs | c frames]; simpl; intro H; f_equal.
  - apply map_ext_in. now apply Forall_forall.
  - apply map_ext_in. intros fr Hfr. apply map_ext_in. intros x Hx.
    rewrite Forall_forall in H. apply H. apply in_concat. now exists fr.
Qed.

Lemma amap_amap {A B C : Type} (f : A -> B) (g : B -> C) (a : ndarray A) :
  amap g (amap f a) = amap (fun x => g (f x)) a.
Proof.
  destruct a as [xs | c frames]; simpl; f_equal.
  - apply map_map.
  - rewrite map_map. apply map_ext. intro fr. apply map_map.
Qed.

Lemma fold_fmax_nan (l : list fnum) : fold_left fmax l NaN = NaN.
Proof.
  induction l as [| x l IH]; [reflexivity | exact IH].
Qed.

(** Once every sample is NaN the limiter and the peak guard pass the
    buffer on: every comparison of the guard with a NaN peak is false. *)
Lemma nan_buffer_passes (a : ndarray fnum) (db : fnum) :
  well_formed a ->
  _true_peak_guard (_soft_limiter (amap (fun _ => NaN) a) default_threshold) db
  = Some (amap (fun _ => NaN) a).
Proof.
  intro Hwf. rewrite soft_limiter_default, amap_amap.
  change (fun _ : fnum => limit_sample default_threshold NaN)
    with (fun _ : fnum => NaN).
  unfold _true_peak_guard, peak_of.
  rewrite (size_flatten _ (well_formed_amap _ _ Hwf)), amap_amap, !flatten_amap.
  destruct (flatten a) as [| x l]; cbn [map length Nat.eqb np_max bind].
  - assert (E : fle (Fin 0) (Fin 0) = true) by (apply fle_fin; lra).
    now rewrite E.
  - change (fabs NaN) with NaN. now rewrite fold_fmax_nan.
Qed.

Section ChainNonFinite.

Variable integrated_loudness : Z -> ndarray fnum -> option fnum.

(** A zero buffer measured at the sentinel: 0 * inf is NaN. *)
Lemma master_chain_silent_sentinel (audio : ndarray fnum) (sr : Z)
    (target : R) :
  (0 < sr)%Z -> well_formed audio -> silent audio ->
  integrated_loudness sr (audio_for_lufs audio) = Some NInf ->
  master_chain integrated_loudness (FloatAudio audio) sr (Fin target)
  = Some (amap (fun _ => NaN) audio).
Proof.
  intros Hsr Hwf Hs Hl.
  assert (Hf : _highpass (_to_float32_audio (FloatAudio audio)) sr (Fin 80)
               = Some audio)
    by (apply highpass_silent; [exact Hsr | lra | exact Hwf | exact Hs]).
  rewrite (master_chain_after_meter integrated_loudness _ sr (Fin target)
             NInf audio Hf Hl).
  rewrite gain_sentinel.
  rewrite (amap_ext_in (fun x => fmul x PInf) (fun _ => NaN)).
  - now apply nan_buffer_passes.
  - unfold silent in Hs. eapply Forall_impl; [| exact Hs].
    intros x ->. cbn [fmul]. apply signed_inf_zero.
Qed.

(** A NaN target: the gain is NaN and so is every sample. *)
Lemma master_chain_nan_target (data : raw_audio) (sr : Z)
    (loudness : fnum) (filtered : ndarray fnum) :
  _highpass (_to_float32_audio data) sr (Fin 80) = Some filtered ->
  well_formed filtered ->
  integrated_loudness sr (audio_for_lufs filtered) = Some loudness ->
  master_chain integrated_loudness data sr NaN
  = Some (amap (fun _ => NaN) filtered).
Proof.
  intros Hf Hwf Hl.
  rewrite (master_chain_after_meter integrated_loudness _ sr NaN
             loudness filtered Hf Hl).
  assert (Hg : gain NaN loudness = NaN) by (destruct loudness; reflexivity).
  rewrite Hg.
  rewrite (amap_ext_in (fun x => fmul x NaN) (fun _ => NaN)).
  - now apply nan_buffer_passes.
  - apply Forall_forall. intros x _. destruct x; reflexivity.
Qed.

End ChainNonFinite.

Lemma silence_buffer_silent : silent silence_buffer.
Proof.
  unfold silent, silence_buffer. cbn [flatten]. apply Forall_forall.
  intros x Hx. now apply repeat_spec in Hx.
Qed.

Lemma map_const_repeat {A B : Type} (c : B) (n : nat) (x : A) :
  map (fun _ => c) (repeat x n) = repeat c n.
Proof.
  induction n as [| n IH]; simpl; [reflexivity | now rewrite IH].
Qed.

Lemma highpass_silence_buffer :
  _highpass (_to_float32_audio (FloatAudio silence_buffer)) 44100 (Fin 80)
  = Some silence_buffer.
Proof.
  apply highpass_silent; [lia | lra | exact I | exact silence_buffer_silent].
Qed.

Lemma master_chain_gain_unclamped_witness :
  _highpass (_to_float32_audio (FloatAudio silence_buffer)) 44100 (Fin 80)
  = Some silence_buffer /\
  silence_meter 44100 (audio_for_lufs silence_buffer) = Some NInf /\
  gain_db (Fin (-14)) NInf = PInf /\
  gain (Fin (-14)) NInf = PInf.
Proof.
  split; [exact highpass_silence_buffer |]. split; [reflexivity |].
  destruct (master_chain_gain_unclamped silence_meter
              (FloatAudio silence_buffer) 44100 (-14) NInf silence_buffer
              highpass_silence_buffer eq_refl)
    as [_ [Hinf _]].
  exact (Hinf eq_refl).
Defined.

(** C1 as the specification has it fails: on half a second of zeros whose
    loudness is the sentinel the gain is +inf, not a finite ceiling, and
    every output sample is NaN. *)
Lemma silence_sentinel_yields_nan :
  silent silence_buffer /\
  silence_meter 44100 (audio_for_lufs silence_buffer) = Some NInf /\
  gain_db (Fin (-14)) NInf = PInf /\
  gain (Fin (-14)) NInf = PInf /\
  master_chain silence_meter (FloatAudio silence_buffer) 44100 (Fin (-14))
  = Some nan_buffer /\
  Forall is_nan (flatten nan_buffer) /\
  flatten nan_buffer <> [].
Proof.
  split; [exact silence_buffer_silent |]. split; [reflexivity |].
  split; [reflexivity |]. split; [apply gain_sentinel |].
  split; [| split].
  - rewrite master_chain_silent_sentinel;
      [| lia | exact I | exact silence_buffer_silent | reflexivity].
    unfold silence_buffer, nan_buffer. cbn [amap].
    now rewrite map_const_repeat.
  - unfold nan_buffer. cbn [flatten]. apply Forall_forall.
    intros x Hx. apply repeat_spec in Hx. now subst.
  - unfold nan_buffer, half_second. cbn [flatten].
    replace (Z.to_nat 22050) with (S (Z.to_nat 22049)) by lia.
    discriminate.
Qed.

(** * The endpoint *)

Section EndpointProperties.

Variable integrated_loudness : Z -> ndarray fnum -> option fnum.
Variable sf_read : bytes -> string + (raw_audio * Z).
Variable sf_write : ndarray fnum -> Z -> option bytes.
Variable mp3_export : bytes -> string + bytes.

(** C2, as the code has it: the endpoint checks nothing about
    [target_lufs] and knows no ConfigError.  Whatever the target, finite
    or not, it goes to [master_chain] as it is; once decoding, the chain
    and the WAV writer have returned, the response carries the mastered
    audio, and the only error response left is status 400 for a failed
    MP3 export.  A failed decode is answered with status 400 as well. *)
Theorem master_passes_any_target (raw : bytes) (format : string)
    (target_lufs : fnum) (data : raw_audio) (sr : Z)
    (mastered : ndarray fnum) (wav_bytes : bytes) :
  sf_read raw = inr (data, sr) ->
  master_chain integrated_loudness data sr target_lufs = Some mastered ->
  sf_write mastered sr = Some wav_bytes ->
  exists r,
    master integrated_loudness sf_read sf_write mp3_export
      raw format target_lufs = Some r /\
    (String.eqb (lower format) "mp3" = false ->
     r = Response wav_bytes "audio/wav"
           [("Content-Disposition"%string,
             "attachment; filename=mastered.wav"%string)]) /\
    (forall mp3_bytes,
       String.eqb (lower format) "mp3" = true ->
       mp3_export wav_bytes = inr mp3_bytes ->
       r = Response mp3_bytes "audio/mpeg"
             [("Content-Disposition"%string,
               "attachment; filename=mastered.mp3"%string)]) /\
    (forall content status,
       r = JSONResponse content status ->
       status = 400%Z /\
       String.eqb (lower format) "mp3" = true /\
       exists e, mp3_export wav_bytes = inl e).
Proof.
  intros Hread Hchain Hwrite. unfold master.
  rewrite Hread, Hchain. cbn [bind]. rewrite Hwrite. cbn [bind].
  destruct (String.eqb (lower format) "mp3") eqn:Hfmt.
  - destruct (mp3_export wav_bytes) as [e | mp3_bytes] eqn:Hmp3.
    + eexists. split; [reflexivity |].
      split; [discriminate |]. split; [intros; discriminate |].
      intros content status H. inversion H; subst.
      split; [reflexivity |]. split; [reflexivity |]. now exists e.
    + eexists. split; [reflexivity |].
      split; [discriminate |]. split.
      * intros b _ H. now inversion H.
      * intros content status H. discriminate.
  - eexists. split; [reflexivity |].
    split; [reflexivity |]. split; [intros; discriminate |].
    intros content status H. discriminate.
Qed.

Lemma master_decode_failure (raw : bytes) (format : string)
    (target_lufs : fnum) (e : string) :
  sf_read raw = inl e ->
  master integrated_loudness sf_read sf_write mp3_export
    raw format target_lufs
  = Some (JSONResponse
            [("error"%string,
              ("Could not read audio. Upload WAV. Details: " ++ e)%string)]
            400).
Proof.
  intro Hread. unfold master. now rewrite Hread.
Qed.

End EndpointProperties.

Lemma master_chain_silence_nan_target :
  master_chain silence_meter (FloatAudio silence_buffer) 44100 NaN
  = Some nan_buffer.
Proof.
  rewrite (master_chain_nan_target silence_meter _ 44100 NInf silence_buffer
             highpass_silence_buffer I eq_refl).
  unfold silence_buffer, nan_buffer. cbn [amap].
  now rewrite map_const_repeat.
Qed.

Lemma master_passes_any_target_witness :
  read_silence [] = inr (FloatAudio silence_buffer, 44100%Z) /\
  master_chain silence_meter (FloatAudio silence_buffer) 44100 NaN
  = Some nan_buffer /\
  write_one_byte_each nan_buffer 44100
  = Some (map (fun _ => Byte.x00) (flatten nan_buffer)) /\
  exists r,
    master silence_meter read_silence write_one_byte_each export_same
      [] "MP3" NaN = Some r /\
    forall content status, r <> JSONResponse content status.
Proof.
  split; [reflexivity |]. split; [exact master_chain_silence_nan_target |].
  split; [reflexivity |].
  destruct (master_passes_any_target silence_meter read_silence
              write_one_byte_each export_same [] "MP3" NaN
              (FloatAudio silence_buffer) 44100 nan_buffer
              (map (fun _ => Byte.x00) (flatten nan_buffer))
              eq_refl master_chain_silence_nan_target eq_refl)
    as [r [Hr [_ [_ Herr]]]].
  exists r. split; [exact Hr |].
  intros content status E.
  destruct (Herr content status E) as [_ [_ [e He]]]. discriminate.
Defined.

(** C2 as the specification has it fails: a NaN target is not rejected;
    the chain runs and the response carries the WAV written from its
    result. *)
Lemma master_accepts_nan_target :
  master_chain silence_meter (FloatAudio silence_buffer) 44100 NaN
  = Some nan_buffer /\
  master silence_meter read_silence write_one_byte_each export_same
    [] "wav" NaN
  = Some (Response (map (fun _ => Byte.x00) (flatten nan_buffer)) "audio/wav"
            [("Content-Disposition"%string,
              "attachment; filename=mastered.wav"%string)]).
Proof.
  split; [exact master_chain_silence_nan_target |].
  unfold master. cbn [read_silence].
  rewrite master_chain_silence_nan_target. reflexivity.
Qed.

Lemma highpass_recurrence_witness :
  (0 < 44100)%Z /\ 0 < 80 /\
  well_formed (Arr2 2 [[Fin 1; Fin 0]; [Fin 0; Fin 1]]) /\
  exists out,
    _highpass (Arr2 2 [[Fin 1; Fin 0]; [Fin 0; Fin 1]]) 44100 (Fin 80)
    = Some out /\
    shape out = [2%nat; 2%nat].
Proof.
  assert (Hsr : (0 < 44100)%Z) by lia.
  assert (Hf : 0 < 80) by lra.
  assert (Hwf : well_formed (Arr2 2 [[Fin 1; Fin 0]; [Fin 0; Fin 1]]))
    by (simpl; repeat constructor).
  split; [exact Hsr |]. split; [exact Hf |]. split; [exact Hwf |].
  destruct (highpass_recurrence _ 44100 80 Hsr Hf Hwf)
    as [out [Hout [Hshape _]]].
  exists out. split; [exact Hout | exact Hshape].
Defined.

(** * Further properties of the filter *)

Lemma hp_loop_fin (a : R) (xs : list R) :
  forall xp yp,
    hp_loop (Fin a) (Fin xp) (Fin yp) (map Fin xs)
    = map Fin (hp_loop_R a xp yp xs).
Proof.
  induction xs as [| x xs IH]; intros xp yp; [reflexivity |].
  cbn [map hp_loop hp_loop_R fadd fsub fmul]. f_equal. apply IH.
Qed.

Lemma hp_loop_R_length (a : R) (xs : list R) :
  forall xp yp, length (hp_loop_R a xp yp xs) = length xs.
Proof.
  induction xs as [| x xs IH]; intros; simpl; auto.
Qed.

Lemma hp_loop_firstn (a : fnum) (n : nat) :
  forall xs xp yp,
    firstn n (hp_loop a xp yp xs) = hp_loop a xp yp (firstn n xs).
Proof.
  induction n as [| n IH]; intros [| x xs] xp yp; try reflexivity.
  cbn [hp_loop firstn]. f_equal. apply IH.
Qed.

Lemma highpass_1d_inv (xs ys : list fnum) (sr : Z) (cutoff_hz : fnum) :
  _highpass (Arr1 xs) sr cutoff_hz = Some (Arr1 ys) ->
  exists a, hp_coeff sr cutoff_hz = Some a /\
            ys = hp_loop a (Fin 0) (Fin 0) xs.
Proof.
  unfold _highpass. destruct (hp_coeff sr cutoff_hz) as [a |]; cbn [bind];
    [| discriminate].
  intro H. inversion H. now exists a.
Qed.

(** X3: the filter is causal.  Two 1-D inputs that agree on their first
    [n] samples give outputs that agree on their first [n] samples,
    whatever comes later and whatever the sample values are. *)
Theorem highpass_causal (xs zs ys ws : list fnum) (sr : Z) (cutoff_hz : fnum)
    (n : nat) :
  firstn n xs = firstn n zs ->
  _highpass (Arr1 xs) sr cutoff_hz = Some (Arr1 ys) ->
  _highpass (Arr1 zs) sr cutoff_hz = Some (Arr1 ws) ->
  firstn n ys = firstn n ws.
Proof.
  intros Hpre Hx Hz.
  apply highpass_1d_inv in Hx as [a [Ha ->]].
  apply highpass_1d_inv in Hz as [a' [Ha' ->]].
  rewrite Ha in Ha'. inversion Ha'; subst a'.
  now rewrite !hp_loop_firstn, Hpre.
Qed.

Lemma highpass_causal_witness :
  firstn 1 [Fin 1; Fin 2] = firstn 1 [Fin 1; Fin 7] /\
  firstn 1 (hp_loop (Fin (hp_a 44100 80)) (Fin 0) (Fin 0) [Fin 1; Fin 2])
  = firstn 1 (hp_loop (Fin (hp_a 44100 80)) (Fin 0) (Fin 0) [Fin 1; Fin 7]).
Proof.
  assert (Ha : hp_coeff 44100 (Fin 80) = Some (Fin (hp_a 44100 80)))
    by (apply hp_coeff_positive; [lia | lra]).
  split; [reflexivity |].
  apply (highpass_causal [Fin 1; Fin 2] [Fin 1; Fin 7] _ _ 44100 (Fin 80) 1).
  - reflexivity.
  - now apply highpass_1d_array.
  - now apply highpass_1d_array.
Defined.

Lemma hp_loop_leading_zeros (a : R) (n : nat) (xs : list fnum) :
  hp_loop (Fin a) (Fin 0) (Fin 0) (repeat (Fin 0) n ++ xs)
  = repeat (Fin 0) n ++ hp_loop (Fin a) (Fin 0) (Fin 0) xs.
Proof.
  induction n as [| n IH]; [reflexivity |].
  cbn [repeat app hp_loop fadd fsub fmul].
  replace (a * (0 + 0 - 0)) with 0 by ring. now rewrite IH.
Qed.

(** X4: the filter is time-invariant.  For a positive sample rate and a
    positive cutoff, delaying a 1-D input by [n] zero samples delays the
    output by [n] zero samples and changes nothing else. *)
Theorem highpass_delay (xs : list fnum) (sr : Z) (cutoff_hz : R) (n : nat) :
  (0 < sr)%Z -> 0 < cutoff_hz ->
  exists ys,
    _highpass (Arr1 xs) sr (Fin cutoff_hz) = Some (Arr1 ys) /\
    _highpass (Arr1 (repeat (Fin 0) n ++ xs)) sr (Fin cutoff_hz)
    = Some (Arr1 (repeat (Fin 0) n ++ ys)).
Proof.
  intros Hsr Hf. pose proof (hp_coeff_positive sr cutoff_hz Hsr Hf) as Ha.
  exists (hp_loop (Fin (hp_a sr cutoff_hz)) (Fin 0) (Fin 0) xs).
  split; [now apply highpass_1d_array |].
  rewrite (highpass_1d_array _ _ _ _ Ha). now rewrite hp_loop_leading_zeros.
Qed.

Lemma highpass_delay_witness :
  (0 < 44100)%Z /\ 0 < 80 /\
  exists ys,
    _highpass (Arr1 [Fin 1]) 44100 (Fin 80) = Some (Arr1 ys) /\
    _highpass (Arr1 (repeat (Fin 0) 2 ++ [Fin 1])) 44100 (Fin 80)
    = Some (Arr1 (repeat (Fin 0) 2 ++ ys)).
Proof.
  split; [lia |]. split; [lra |].
  apply (highpass_delay [Fin 1] 44100 80 2); [lia | lra].
Defined.

Lemma superpose_length (k : R) (xs zs : list R) :
  length xs = length zs -> length (superpose k xs zs) = length xs.
Proof.
  intro H. unfold superpose. rewrite length_map, length_combine, <- H.
  apply Nat.min_id.
Qed.

Lemma hp_loop_R_superpose (a k : R) (xs : list R) :
  forall zs xp yp xp' yp',
    length xs = length zs ->
    hp_loop_R a (k * xp + xp') (k * yp + yp') (superpose k xs zs)
    = superpose k (hp_loop_R a xp yp xs) (hp_loop_R a xp' yp' zs).
Proof.
  induction xs as [| x xs IH]; intros [| z zs] xp yp xp' yp' Hlen;
    try discriminate; [reflexivity |].
  unfold superpose in *. cbn [combine map hp_loop_R fst snd]. f_equal.
  - ring.
  - replace (a * (k * yp + yp' + (k * x + z) - (k * xp + xp')))
      with (k * (a * (yp + x - xp)) + a * (yp' + z - xp')) by ring.
    apply IH. now inversion Hlen.
Qed.

(** X5: the filter is linear on finite samples.  For a positive sample
    rate and cutoff, the output for [k * xs + zs] is [k] times the output
    for [xs] plus the output for [zs]. *)
Theorem highpass_superposition (xs zs : list R) (k : R) (sr : Z)
    (cutoff_hz : R) :
  (0 < sr)%Z -> 0 < cutoff_hz -> length xs = length zs ->
  exists ys ws,
    _highpass (Arr1 (map Fin xs)) sr (Fin cutoff_hz) = Some (Arr1 (map Fin ys)) /\
    _highpass (Arr1 (map Fin zs)) sr (Fin cutoff_hz) = Some (Arr1 (map Fin ws)) /\
    _highpass (Arr1 (map Fin (superpose k xs zs))) sr (Fin cutoff_hz)
    = Some (Arr1 (map Fin (superpose k ys ws))).
Proof.
  intros Hsr Hf Hlen.
  pose proof (hp_coeff_positive sr cutoff_hz Hsr Hf) as Ha.
  exists (hp_loop_R (hp_a sr cutoff_hz) 0 0 xs),
         (hp_loop_R (hp_a sr cutoff_hz) 0 0 zs).
  rewrite !(highpass_1d_array _ _ _ _ Ha), !hp_loop_fin.
  split; [reflexivity |]. split; [reflexivity |].
  do 3 f_equal.
  rewrite <- (hp_loop_R_superpose _ k xs zs 0 0 0 0 Hlen).
  f_equal; ring.
Qed.

Lemma highpass_superposition_witness :
  (0 < 44100)%Z /\ 0 < 80 /\ length [1; 2] = length [3; 4] /\
  exists ys ws,
    _highpass (Arr1 (map Fin [1; 2])) 44100 (Fin 80) = Some (Arr1 (map Fin ys)) /\
    _highpass (Arr1 (map Fin [3; 4])) 44100 (Fin 80) = Some (Arr1 (map Fin ws)) /\
    _highpass (Arr1 (map Fin (superpose 5 [1; 2] [3; 4]))) 44100 (Fin 80)
    = Some (Arr1 (map Fin (superpose 5 ys ws))).
Proof.
  split; [lia |]. split; [lra |]. split; [reflexivity |].
  apply (highpass_superposition [1; 2] [3; 4] 5 44100 80);
    [lia | lra | reflexivity].
Defined.

Lemma hp_loop_R_constant (a c : R) (n : nat) :
  forall y,
    hp_loop_R a c y (repeat c n)
    = map (fun i => y * a ^ (i + 1)) (seq 0 n).
Proof.
  induction n as [| n IH]; intro y; [reflexivity |].
  cbn [repeat hp_loop_R seq map]. f_equal.
  - simpl. ring.
  - rewrite IH, <- seq_shift, map_map. apply map_ext. intro i.
    simpl. ring.
Qed.

(** X6: the filter removes a constant offset.  For a positive sample rate
    and cutoff, a constant 1-D input [c, c, ...] comes out as
    [c a^(n+1)] at position [n], with [0 < a < 1]: it decays
    geometrically towards zero. *)
Theorem highpass_step_response (c : R) (n : nat) (sr : Z) (cutoff_hz : R) :
  (0 < sr)%Z -> 0 < cutoff_hz ->
  0 < hp_a sr cutoff_hz < 1 /\
  _highpass (Arr1 (repeat (Fin c) n)) sr (Fin cutoff_hz)
  = Some (Arr1 (map (fun i => Fin (c * hp_a sr cutoff_hz ^ (i + 1)))
                  (seq 0 n))).
Proof.
  intros Hsr Hf. split; [now apply hp_a_range |].
  rewrite (highpass_1d_array _ _ _ _ (hp_coeff_positive sr cutoff_hz Hsr Hf)).
  rewrite <- map_repeat, hp_loop_fin.
  rewrite <- (map_map (fun i => c * hp_a sr cutoff_hz ^ (i + 1)) Fin).
  do 3 f_equal.
  destruct n as [| n]; [reflexivity |].
  cbn [repeat hp_loop_R seq map]. f_equal.
  - simpl. ring.
  - rewrite hp_loop_R_constant, <- seq_shift, !map_map. apply map_ext.
    intro i. simpl. ring.
Qed.

Lemma highpass_step_response_witness :
  (0 < 44100)%Z /\ 0 < 80 /\
  _highpass (Arr1 (repeat (Fin 1) 3)) 44100 (Fin 80)
  = Some (Arr1 (map (fun i => Fin (1 * hp_a 44100 80 ^ (i + 1))) (seq 0 3))).
Proof.
  split; [lia |]. split; [lra |].
  apply (highpass_step_response 1 3 44100 80); [lia | lra].
Defined.

Lemma column_forall (P : fnum -> Prop) (ch : nat) (frames : list (list fnum)) :
  P (Fin 0) -> Forall P (concat frames) -> Forall P (column ch frames).
Proof.
  intros H0 H. unfold column. apply Forall_map. apply Forall_forall.
  intros fr Hfr. destruct (Nat.lt_ge_cases ch (length fr)) as [Hlt | Hge].
  - rewrite Forall_forall in H. apply H. apply in_concat.
    exists fr. split; [exact Hfr | now apply nth_In].
  - now rewrite nth_overflow.
Qed.

Lemma concat_forall_of_columns (P : fnum -> Prop) (c : nat)
    (out : list (list fnum)) :
  Forall (fun fr => length fr = c) out ->
  (forall ch, (ch < c)%nat -> Forall P (column ch out)) ->
  Forall P (concat out).
Proof.
  intro Hrows. induction Hrows as [| fr out Hfr Hrows IH]; intro Hcol;
    [constructor |].
  cbn [concat]. apply Forall_app. split.
  - apply Forall_forall. intros x Hx.
    destruct (In_nth _ _ (Fin 0) Hx) as [ch [Hch <-]].
    rewrite Hfr in Hch. specialize (Hcol ch Hch).
    cbn [column map] in Hcol. now inversion Hcol.
  - apply IH. intros ch Hch. specialize (Hcol ch Hch).
    cbn [column map] in Hcol. now inversion Hcol.
Qed.

(** A property of the samples that the loop carries from input to output
    is carried by [_highpass] on 1-D and 2-D buffers alike. *)
Lemma highpass_pointwise (Q P : fnum -> Prop) (audio : ndarray fnum) (sr : Z)
    (cutoff_hz : R) :
  (0 < sr)%Z -> 0 < cutoff_hz -> well_formed audio ->
  Q (Fin 0) ->
  (forall xs, Forall Q xs ->
     Forall P (hp_loop (Fin (hp_a sr cutoff_hz)) (Fin 0) (Fin 0) xs)) ->
  Forall Q (flatten audio) ->
  exists out,
    _highpass audio sr (Fin cutoff_hz) = Some out /\
    shape out = shape audio /\ well_formed out /\
    Forall P (flatten out).
Proof.
  intros Hsr Hf Hwf HQ0 Hloop HQ.
  pose proof (hp_coeff_positive sr cutoff_hz Hsr Hf) as Ha.
  destruct audio as [xs | c frames].
  - exists (Arr1 (hp_loop (Fin (hp_a sr cutoff_hz)) (Fin 0) (Fin 0) xs)).
    split; [now apply highpass_1d_array |].
    split; [simpl; now rewrite hp_loop_length |].
    split; [exact I | now apply Hloop].
  - destruct (highpass_2d c frames sr (Fin cutoff_hz) _ Ha Hwf)
      as [out [Hout [Hlen [Hrows Hcol]]]].
    exists (Arr2 c out). split; [exact Hout |].
    split; [simpl; now rewrite Hlen |]. split; [exact Hrows |].
    cbn [flatten]. apply (concat_forall_of_columns P c); [exact Hrows |].
    intros ch Hch. rewrite (Hcol ch Hch). apply Hloop.
    now apply column_forall.
Qed.



Lemma bounded_list (M : R) (xs : list fnum) :
  Forall (fun x => exists r, x = Fin r /\ Rabs r <= M) xs ->
  exists rs, xs = map Fin rs /\ Forall (fun r => Rabs r <= M) rs.
Proof.
  induction 1 as [| x xs [r [-> Hr]] H [rs [-> IH]]].
  - exists []. split; [reflexivity | constructor].
  - exists (r :: rs). split; [reflexivity | now constructor].
Qed.

Lemma Rabs_le_between (x b : R) : Rabs x <= b -> - b <= x <= b.
Proof.
  unfold Rabs. destruct (Rcase_abs x); lra.
Qed.

Lemma peak_at_most_cases (audio : ndarray fnum) (M : R) :
  peak_at_most audio M -> flatten audio = [] \/ 0 <= M.
Proof.
  unfold peak_at_most. destruct (flatten audio) as [| x l]; [now left |].
  intro H. right. inversion H as [| ? ? [r [_ Hr]] _]; subst.
  pose proof (Rabs_pos r). lra.
Qed.

Lemma hp_loop_R_bound (a M B : R) (xs : list R) :
  0 < a -> a * B + 2 * a * M = B ->
  Forall (fun r => Rabs r <= M) xs ->
  forall xp yp, Rabs xp <= M -> Rabs yp <= B ->
    Forall (fun r => Rabs r <= B) (hp_loop_R a xp yp xs).
Proof.
  intros Ha HB H. induction H as [| x xs Hx H IH]; intros xp yp Hxp Hyp;
    [constructor |].
  cbn [hp_loop_R].
  assert (Hy : Rabs (a * (yp + x - xp)) <= B).
  { apply Rabs_le. apply Rabs_le_between in Hx, Hxp, Hyp. nra. }
  constructor; [exact Hy |]. now apply IH.
Qed.

(** X7: the filter is stable.  For a positive sample rate and cutoff, a
    well-formed buffer whose samples are finite and bounded by [M] in
    magnitude is filtered into a buffer of the same shape whose samples
    are finite and bounded by [2 M a / (1 - a)], [a] the coefficient of
    the filter; no rumble-free input can make the output grow without
    bound or turn non-finite. *)
Theorem highpass_bounded (audio : ndarray fnum) (sr : Z) (cutoff_hz M : R) :
  (0 < sr)%Z -> 0 < cutoff_hz -> well_formed audio -> peak_at_most audio M ->
  exists out,
    _highpass audio sr (Fin cutoff_hz) = Some out /\
    shape out = shape audio /\
    peak_at_most out (2 * M * hp_a sr cutoff_hz / (1 - hp_a sr cutoff_hz)).
Proof.
  intros Hsr Hf Hwf Hpk.
  destruct (hp_a_range sr cutoff_hz Hsr Hf) as [Ha0 Ha1].
  set (a := hp_a sr cutoff_hz) in *. set (B := 2 * M * a / (1 - a)).
  assert (HB : a * B + 2 * a * M = B) by (unfold B; field; lra).
  destruct (peak_at_most_cases audio M Hpk) as [Hempty | HM].
  - (* no sample at all *)
    destruct (highpass_pointwise (fun _ => True) (fun _ => True) audio sr
                cutoff_hz Hsr Hf Hwf I) as [out [Hout [Hshape [Hwf' _]]]].
    + intros xs _. apply Forall_forall. intros; exact I.
    + apply Forall_forall. intros; exact I.
    + exists out. split; [exact Hout |]. split; [exact Hshape |].
      unfold peak_at_most.
      assert (Hlen : length (flatten out) = length (flatten audio)).
      { rewrite <- (size_flatten out Hwf'), <- (size_flatten audio Hwf).
        unfold size. now rewrite Hshape. }
      rewrite Hempty in Hlen. destruct (flatten out); [constructor | discriminate].
  - assert (HB0 : 0 <= B).
    { unfold B. apply Rmult_le_pos; [| left; apply Rinv_0_lt_compat; lra]. nra. }
    destruct (highpass_pointwise
                (fun x => exists r, x = Fin r /\ Rabs r <= M)
                (fun x => exists r, x = Fin r /\ Rabs r <= B)
                audio sr cutoff_hz Hsr Hf Hwf) as [out [Hout [Hshape [_ Hb]]]].
    + exists 0. split; [reflexivity | rewrite Rabs_R0; exact HM].
    + intros xs Hxs. destruct (bounded_list M xs Hxs) as [rs [-> Hrs]].
      fold a. rewrite hp_loop_fin. apply Forall_map.
      pose proof (hp_loop_R_bound a M B rs Ha0 HB Hrs 0 0) as Hbound.
      rewrite Rabs_R0 in Hbound. specialize (Hbound HM HB0).
      eapply Forall_impl; [| exact Hbound].
      intros r Hr. now exists r.
    + exact Hpk.
    + exists out. auto.
Qed.

Lemma highpass_bounded_witness :
  (0 < 44100)%Z /\ 0 < 80 /\
  well_formed (Arr2 2 [[Fin 1; Fin (-1)]; [Fin (1 / 2); Fin 0]]) /\
  peak_at_most (Arr2 2 [[Fin 1; Fin (-1)]; [Fin (1 / 2); Fin 0]]) 1 /\
  exists out,
    _highpass (Arr2 2 [[Fin 1; Fin (-1)]; [Fin (1 / 2); Fin 0]]) 44100 (Fin 80)
    = Some out /\
    peak_at_most out (2 * 1 * hp_a 44100 80 / (1 - hp_a 44100 80)).
Proof.
  assert (Hsr : (0 < 44100)%Z) by lia.
  assert (Hf : 0 < 80) by lra.
  assert (Hwf : well_formed (Arr2 2 [[Fin 1; Fin (-1)]; [Fin (1 / 2); Fin 0]]))
    by (simpl; repeat constructor).
  assert (Hpk : peak_at_most
                  (Arr2 2 [[Fin 1; Fin (-1)]; [Fin (1 / 2); Fin 0]]) 1).
  { unfold peak_at_most. cbn [flatten concat app].
    repeat constructor; eexists; (split; [reflexivity |]);
      unfold Rabs; destruct (Rcase_abs _); lra. }
  split; [exact Hsr |]. split; [exact Hf |]. split; [exact Hwf |].
  split; [exact Hpk |].
  destruct (highpass_bounded _ 44100 80 1 Hsr Hf Hwf Hpk)
    as [out [Hout [_ Hb]]].
  exists out. split; [exact Hout | exact Hb].
Defined.

Lemma hp_coeff_zero_rate (cutoff_hz : fnum) : hp_coeff 0 cutoff_hz = None.
Proof.
  unfold hp_coeff, py_div. destruct (Req_dec_T (IZR 0) 0) as [_ | N];
    [reflexivity | contradiction N; reflexivity].
Qed.

Lemma hp_coeff_zero_cutoff (sr : Z) : hp_coeff sr (Fin 0) = None.
Proof.
  unfold hp_coeff. destruct (py_div (Fin 1) (Fin (IZR sr))) as [dt |];
    cbn [bind]; [| reflexivity].
  cbn [fmul]. unfold py_div at 1.
  destruct (Req_dec_T (2 * PI * 0) 0) as [_ | N];
    [reflexivity | contradiction N; ring].
Qed.

(** X2: a sample rate of zero, or a cutoff of zero, makes the filter raise
    (a division by zero when the coefficient is computed) on every buffer,
    the empty one included; [master_chain] then raises as well, whatever
    the loudness meter would have returned. *)
Theorem highpass_zero_division (audio : ndarray fnum) (data : raw_audio)
    (sr : Z) (cutoff_hz target_lufs : fnum)
    (integrated_loudness : Z -> ndarray fnum -> option fnum) :
  _highpass audio 0 cutoff_hz = None /\
  _highpass audio sr (Fin 0) = None /\
  master_chain integrated_loudness data 0 target_lufs = None.
Proof.
  split; [| split].
  - unfold _highpass. now rewrite hp_coeff_zero_rate.
  - unfold _highpass. now rewrite hp_coeff_zero_cutoff.
  - unfold master_chain, _highpass. now rewrite hp_coeff_zero_rate.
Qed.

(** * Further properties of the normalizer *)

Lemma to_float32_int_flatten (s : bool) (w : int_width) (a : ndarray Z) :
  flatten (_to_float32_audio (IntAudio s w a))
  = map (fun v => Fin (IZR v / IZR (iinfo_max s w))) (flatten a).
Proof.
  cbn [_to_float32_audio]. rewrite flatten_amap. apply map_ext. intro v.
  apply fdiv_fin. apply not_0_IZR. destruct s, w; discriminate.
Qed.

(** X1: integer input always yields finite samples; when every sample lies
    between [-iinfo.max] and [iinfo.max] (every unsigned sample, every
    signed sample but the most negative one) the result lies in [-1, 1],
    and the sample [iinfo.max] maps to exactly 1. *)
Theorem to_float32_int_range (s : bool) (w : int_width) (a : ndarray Z) :
  Forall (fun v => (- iinfo_max s w <= v <= iinfo_max s w)%Z) (flatten a) ->
  all_finite (_to_float32_audio (IntAudio s w a)) /\
  peak_at_most (_to_float32_audio (IntAudio s w a)) 1 /\
  _to_float32_audio (IntAudio s w (Arr1 [iinfo_max s w])) = Arr1 [Fin 1].
Proof.
  intro H. unfold all_finite, peak_at_most.
  rewrite to_float32_int_flatten. split; [| split].
  - apply Forall_map. apply Forall_forall. intros v _. exact I.
  - apply Forall_map. eapply Forall_impl; [| exact H].
    intros v Hv. eexists. split; [reflexivity |].
    apply Rabs_le. now apply to_float32_int_in_range.
  - rewrite to_float32_int_sample. cbn [map]. do 3 f_equal.
    field. apply not_0_IZR. destruct s, w; discriminate.
Qed.

Lemma to_float32_int_range_witness :
  Forall (fun v => (- iinfo_max true W16 <= v <= iinfo_max true W16)%Z)
    (flatten (Arr1 [(-32767)%Z; 0%Z; 32767%Z])) /\
  peak_at_most
    (_to_float32_audio (IntAudio true W16 (Arr1 [(-32767)%Z; 0%Z; 32767%Z]))) 1.
Proof.
  assert (H : Forall
                (fun v => (- iinfo_max true W16 <= v <= iinfo_max true W16)%Z)
                (flatten (Arr1 [(-32767)%Z; 0%Z; 32767%Z]))).
  { cbn [flatten]. repeat constructor; vm_compute; discriminate. }
  split; [exact H |].
  exact (proj1 (proj2 (to_float32_int_range true W16 _ H))).
Defined.

(** * Further properties of the limiter *)

Lemma limit_sample_range (tau : R) (x : fnum) :
  0 < tau -> x <> NaN ->
  exists y, limit_sample (Fin tau) x = Fin y /\ Rabs y <= tau.
Proof.
  intros Ht Hx. destruct x as [r | | |]; [| | | contradiction].
  - exists (tanh (r / tau) * tau). split; [now apply limit_sample_fin |].
    left. now apply limit_value_bound.
  - exists (1 * tau). unfold limit_sample. cbn [fdiv].
    destruct (Rlt_dec tau 0); [lra |]. split; [reflexivity |].
    rewrite Rmult_1_l, Rabs_right; lra.
  - exists (-1 * tau). unfold limit_sample. cbn [fdiv].
    destruct (Rlt_dec tau 0); [lra |]. split; [reflexivity |].
    replace (-1 * tau) with (- tau) by ring.
    rewrite Rabs_Ropp, Rabs_right; lra.
Qed.

Lemma effective_threshold (audio : ndarray fnum) (t : fnum) :
  t <> NaN ->
  exists tau, 0 < tau <= 1 /\
    _soft_limiter audio t = amap (limit_sample (Fin tau)) audio.
Proof.
  intro Ht. destruct t as [r | | |]; [| | | contradiction].
  - destruct (Rle_dec r 0) as [Hle | Hgt].
    + exists (95 / 100). split; [lra |]. unfold _soft_limiter.
      assert (E : fle (Fin r) (Fin 0) = true) by now apply fle_fin.
      now rewrite E.
    + destruct (Rlt_dec 1 r) as [Hbig | Hsmall].
      * exists (95 / 100). split; [lra |]. unfold _soft_limiter.
        assert (E : fgt (Fin r) (Fin 1) = true) by now apply fgt_fin.
        rewrite E, orb_true_r. reflexivity.
      * exists r. split; [lra |]. apply soft_limiter_in_range. lra.
  - exists (95 / 100). split; [lra | reflexivity].
  - exists (95 / 100). split; [lra | reflexivity].
Qed.

(** X8: whatever threshold is passed, NaN apart, the limiter works with a
    threshold [tau] in (0, 1], and every sample that is not NaN, the
    infinities included, comes out finite with magnitude at most [tau]. *)
Theorem soft_limiter_output_range (audio : ndarray fnum) (t : fnum) :
  t <> NaN -> no_nan audio ->
  exists tau,
    0 < tau <= 1 /\
    _soft_limiter audio t = amap (limit_sample (Fin tau)) audio /\
    peak_at_most (_soft_limiter audio t) tau /\
    limit_sample (Fin tau) PInf = Fin tau /\
    limit_sample (Fin tau) NInf = Fin (- tau).
Proof.
  intros Ht Hnn. destruct (effective_threshold audio t Ht) as [tau [Htau E]].
  exists tau. split; [exact Htau |]. split; [exact E |]. split; [| split].
  - rewrite E. unfold peak_at_most. rewrite flatten_amap. apply Forall_map.
    unfold no_nan in Hnn. eapply Forall_impl; [| exact Hnn].
    intros x Hx. apply limit_sample_range; [lra | exact Hx].
  - unfold limit_sample. cbn [fdiv]. destruct (Rlt_dec tau 0); [lra |].
    cbn [ftanh fmul]. f_equal. ring.
  - unfold limit_sample. cbn [fdiv]. destruct (Rlt_dec tau 0); [lra |].
    cbn [ftanh fmul]. f_equal. ring.
Qed.

Lemma soft_limiter_output_range_witness :
  PInf <> NaN /\ no_nan (Arr1 [Fin 3; PInf; NInf]) /\
  exists tau,
    0 < tau <= 1 /\
    peak_at_most (_soft_limiter (Arr1 [Fin 3; PInf; NInf]) PInf) tau.
Proof.
  assert (Ht : PInf <> NaN) by discriminate.
  assert (Hnn : no_nan (Arr1 [Fin 3; PInf; NInf]))
    by (repeat constructor; discriminate).
  split; [exact Ht |]. split; [exact Hnn |].
  destruct (soft_limiter_output_range (Arr1 [Fin 3; PInf; NInf]) PInf Ht Hnn)
    as [tau [Htau [_ [Hpk _]]]].
  exists tau. split; [exact Htau | exact Hpk].
Defined.

(** X9: a NaN threshold passes both range tests ([NaN <= 0] and [NaN > 1]
    are false), is therefore not replaced by 0.95, and turns every sample
    of the buffer into NaN. *)
Theorem soft_limiter_nan_threshold (audio : ndarray fnum) :
  _soft_limiter audio NaN = amap (fun _ => NaN) audio.
Proof.
  unfold _soft_limiter. cbn [fle fgt orb].
  apply amap_ext_in. apply Forall_forall. intros x _.
  unfold limit_sample. destruct x; reflexivity.
Qed.

(** * Further properties of the peak guard *)

Lemma peak_at_most_finite (audio : ndarray fnum) (M : R) :
  peak_at_most audio M -> all_finite audio.
Proof.
  unfold peak_at_most, all_finite. intro H. eapply Forall_impl; [| exact H].
  intros x [r [-> _]]. exact I.
Qed.

Lemma pow10_db (db : R) :
  pow10 (fdiv (Fin db) (Fin 20)) = Fin (Rpower 10 (db / 20)).
Proof.
  rewrite fdiv_fin by lra. reflexivity.
Qed.

(** A buffer already under the ceiling is returned as it is. *)
Lemma true_peak_guard_below (audio : ndarray fnum) (db : R) :
  well_formed audio -> peak_at_most audio (Rpower 10 (db / 20)) ->
  _true_peak_guard audio (Fin db) = Some audio.
Proof.
  intros Hwf Hb.
  destruct (peak_of_finite audio Hwf (peak_at_most_finite _ _ Hb))
    as [peak [Hpk [_ [_ [Hempty Hattained]]]]].
  assert (Htgt : 0 < Rpower 10 (db / 20)) by apply exp_pos.
  assert (Hle : peak <= Rpower 10 (db / 20)).
  { destruct (flatten audio) as [| x l] eqn:E.
    - rewrite Hempty by reflexivity. lra.
    - destruct Hattained as [r [Hin <-]]; [discriminate |].
      unfold peak_at_most in Hb. rewrite E in Hb. rewrite Forall_forall in Hb.
      destruct (Hb _ Hin) as [r' [Er Hr]]. inversion Er. now subst. }
  unfold _true_peak_guard. rewrite Hpk. cbn [bind]. rewrite pow10_db.
  destruct (fle (Fin peak) (Fin 0)); [reflexivity |].
  destruct (fgt (Fin peak) (Fin _)) eqn:G; [| reflexivity].
  apply fgt_fin in G. lra.
Qed.

(** A buffer above the ceiling is scaled by [target / peak]. *)
Lemma true_peak_guard_above (audio : ndarray fnum) (db peak : R) :
  peak_of audio = Some (Fin peak) -> Rpower 10 (db / 20) < peak ->
  _true_peak_guard audio (Fin db)
  = Some (amap (fun x => fmul x (Fin (Rpower 10 (db / 20) / peak))) audio).
Proof.
  intros Hpk Habove.
  assert (Htgt : 0 < Rpower 10 (db / 20)) by apply exp_pos.
  unfold _true_peak_guard. rewrite Hpk. cbn [bind]. rewrite pow10_db.
  destruct (fle (Fin peak) (Fin 0)) eqn:E; [apply fle_fin in E; lra |].
  assert (G : fgt (Fin peak) (Fin (Rpower 10 (db / 20))) = true)
    by now apply fgt_fin.
  rewrite G, py_div_fin by lra. reflexivity.
Qed.

Lemma amap_unit_factor (audio : ndarray fnum) :
  amap (fun x => fmul x (Fin 1)) audio = audio.
Proof.
  apply amap_fixed. apply Forall_forall. intros x _.
  destruct x as [r | | |]; cbn [fmul]; try reflexivity.
  - f_equal. ring.
  - apply signed_inf_pos. lra.
  - unfold signed_inf. destruct (Rlt_dec 0 (- (1))); [lra |].
    destruct (Rlt_dec (- (1)) 0); [reflexivity | lra].
Qed.



(** X11: on a well-formed buffer of finite samples the guard is one
    common factor in (0, 1] applied to every sample of every channel: it
    never amplifies and it keeps the ratios between samples. *)
Theorem true_peak_guard_uniform_scale (audio : ndarray fnum) (db : R) :
  well_formed audio -> all_finite audio ->
  exists s,
    0 < s <= 1 /\
    _true_peak_guard audio (Fin db)
    = Some (amap (fun x => fmul x (Fin s)) audio).
Proof.
  intros Hwf Hfin.
  destruct (peak_of_finite audio Hwf Hfin) as [peak [Hpk [Hpos [Hmost _]]]].
  assert (Htgt : 0 < Rpower 10 (db / 20)) by apply exp_pos.
  destruct (Rlt_dec (Rpower 10 (db / 20)) peak) as [Habove | Hbelow].
  - exists (Rpower 10 (db / 20) / peak). split.
    + split; [apply Rdiv_lt_0_compat; lra |].
      apply Rmult_le_reg_r with peak; [lra |].
      unfold Rdiv. rewrite Rmult_assoc, Rinv_l by lra. lra.
    + now apply true_peak_guard_above.
  - exists 1. split; [lra |]. rewrite amap_unit_factor.
    apply true_peak_guard_below; [exact Hwf |].
    apply (peak_at_most_weaken audio peak); [lra | exact Hmost].
Qed.

Lemma true_peak_guard_uniform_scale_witness :
  well_formed (Arr2 2 [[Fin 2; Fin (-3)]]) /\
  all_finite (Arr2 2 [[Fin 2; Fin (-3)]]) /\
  exists s,
    0 < s <= 1 /\
    _true_peak_guard (Arr2 2 [[Fin 2; Fin (-3)]]) (Fin (-1))
    = Some (amap (fun x => fmul x (Fin s)) (Arr2 2 [[Fin 2; Fin (-3)]])).
Proof.
  assert (Hwf : well_formed (Arr2 2 [[Fin 2; Fin (-3)]]))
    by (simpl; repeat constructor).
  assert (Hfin : all_finite (Arr2 2 [[Fin 2; Fin (-3)]]))
    by (repeat constructor).
  split; [exact Hwf |]. split; [exact Hfin |].
  apply (true_peak_guard_uniform_scale _ (-1) Hwf Hfin).
Defined.

Lemma fmax_nan_r (x : fnum) : fmax x NaN = NaN.
Proof. destruct x; reflexivity. Qed.

Lemma fold_fmax_nan_in (l : list fnum) :
  forall x, In NaN (x :: l) -> fold_left fmax l x = NaN.
Proof.
  induction l as [| y l IH]; intros x Hin.
  - destruct Hin as [-> | []]. reflexivity.
  - cbn [fold_left]. destruct Hin as [-> | [-> | Hin]].
    + apply fold_fmax_nan.
    + rewrite fmax_nan_r. apply fold_fmax_nan.
    + apply IH. now right.
Qed.

(** X12: a buffer that contains a NaN sample comes back from the guard
    unchanged, whatever its other samples and whatever the ceiling: the
    peak is NaN and both comparisons with it are false. *)
Theorem true_peak_guard_nan_passthrough (audio : ndarray fnum) (db : fnum) :
  well_formed audio -> In NaN (flatten audio) ->
  peak_of audio = Some NaN /\ _true_peak_guard audio db = Some audio.
Proof.
  intros Hwf Hin.
  assert (Hpk : peak_of audio = Some NaN).
  { unfold peak_of. rewrite (size_flatten _ Hwf), flatten_amap.
    assert (Hin' : In NaN (map fabs (flatten audio)))
      by (change NaN with (fabs NaN); now apply in_map).
    destruct (map fabs (flatten audio)) as [| x l] eqn:E; [contradiction |].
    assert (Hlen : length (flatten audio) = S (length l))
      by (rewrite <- (length_map fabs), E; reflexivity).
    rewrite Hlen. cbn [Nat.eqb np_max]. now rewrite fold_fmax_nan_in. }
  split; [exact Hpk |].
  unfold _true_peak_guard. rewrite Hpk. reflexivity.
Qed.

Lemma true_peak_guard_nan_passthrough_witness :
  well_formed (Arr1 [Fin 5; NaN; PInf]) /\
  In NaN (flatten (Arr1 [Fin 5; NaN; PInf])) /\
  _true_peak_guard (Arr1 [Fin 5; NaN; PInf]) (Fin (-1))
  = Some (Arr1 [Fin 5; NaN; PInf]).
Proof.
  assert (Hwf : well_formed (Arr1 [Fin 5; NaN; PInf])) by exact I.
  assert (Hin : In NaN (flatten (Arr1 [Fin 5; NaN; PInf])))
    by (right; left; reflexivity).
  split; [exact Hwf |]. split; [exact Hin |].
  exact (proj2 (true_peak_guard_nan_passthrough _ (Fin (-1)) Hwf Hin)).
Defined.

(** * Further properties of the gain and the chain *)


(** X13: for a finite target and a finite loudness the linear gain is
    [10^((target - loudness)/20)]: positive, equal to 1 exactly when the
    loudness is on target, strictly increasing in the target, and
    multiplied by 10 for every 20 dB added to the target. *)
Theorem gain_laws (t l : R) :
  gain (Fin t) (Fin l) = Fin (Rpower 10 ((t - l) / 20)) /\
  0 < Rpower 10 ((t - l) / 20) /\
  (Rpower 10 ((t - l) / 20) = 1 <-> t = l) /\
  (forall t', t < t' ->
     Rpower 10 ((t - l) / 20) < Rpower 10 ((t' - l) / 20)) /\
  gain (Fin (t + 20)) (Fin l) = Fin (10 * Rpower 10 ((t - l) / 20)).
Proof.
  assert (Hmono : forall x y, x < y -> Rpower 10 (x / 20) < Rpower 10 (y / 20)).
  { intros x y Hxy. apply Rpower_lt; lra. }
  assert (Hone : Rpower 10 (0 / 20) = 1).
  { replace (0 / 20) with 0 by field. apply Rpower_O. lra. }
  split; [apply gain_finite |]. split; [apply exp_pos |].
  split; [| split].
  - split.
    + intro E. destruct (Rtotal_order t l) as [Hlt | [Heq | Hgt]];
        [| exact Heq |].
      * pose proof (Hmono (t - l) 0 ltac:(lra)). lra.
      * pose proof (Hmono 0 (t - l) ltac:(lra)). lra.
    + intros ->. replace (l - l) with 0 by ring. exact Hone.
  - intros t' Ht. apply Hmono. lra.
  - rewrite gain_finite. f_equal.
    replace ((t + 20 - l) / 20) with (1 + (t - l) / 20) by field.
    rewrite Rpower_plus, Rpower_1 by lra. reflexivity.
Qed.

Section ChainFurther.

Variable integrated_loudness : Z -> ndarray fnum -> option fnum.

(** X14: when the measured loudness equals the target the gain stage
    changes nothing: the result of the chain is the peak guard applied to
    the limited, filtered buffer. *)
Theorem master_chain_on_target (data : raw_audio) (sr : Z) (l : R)
    (filtered : ndarray fnum) :
  _highpass (_to_float32_audio data) sr (Fin 80) = Some filtered ->
  integrated_loudness sr (audio_for_lufs filtered) = Some (Fin l) ->
  gain (Fin l) (Fin l) = Fin 1 /\
  master_chain integrated_loudness data sr (Fin l)
  = _true_peak_guard (_soft_limiter filtered default_threshold) (Fin (-1)).
Proof.
  intros Hf Hl.
  assert (Hg : gain (Fin l) (Fin l) = Fin 1).
  { rewrite gain_finite. f_equal. replace ((l - l) / 20) with 0 by field.
    apply Rpower_O. lra. }
  split; [exact Hg |].
  rewrite (master_chain_after_meter integrated_loudness data sr (Fin l)
             (Fin l) filtered Hf Hl).
  now rewrite Hg, amap_unit_factor.
Qed.


(** X16: for a positive sample rate and a well-formed input the chain
    raises exactly when the loudness meter raises on the filtered buffer;
    no other stage can fail. *)
Theorem master_chain_raises_iff (data : raw_audio) (sr : Z)
    (target_lufs : fnum) :
  (0 < sr)%Z -> raw_well_formed data ->
  exists filtered,
    _highpass (_to_float32_audio data) sr (Fin 80) = Some filtered /\
    (master_chain integrated_loudness data sr target_lufs = None <->
     integrated_loudness sr (audio_for_lufs filtered) = None).
Proof.
  intros Hsr Hwf.
  pose proof (to_float32_well_formed data Hwf) as Hwf0.
  destruct (highpass_preserves_shape sr 80 Hsr ltac:(lra) _ Hwf0)
    as [filtered [Hf [_ Hwff]]].
  exists filtered. split; [exact Hf |].
  destruct (integrated_loudness sr (audio_for_lufs filtered))
    as [loudness |] eqn:Hl.
  - rewrite (master_chain_after_meter integrated_loudness data sr target_lufs
               loudness filtered Hf Hl).
    destruct (true_peak_guard_total
                (_soft_limiter
                   (amap (fun x => fmul x (gain target_lufs loudness)) filtered)
                   default_threshold) (Fin (-1))) as [out Hout].
    + unfold _soft_limiter. now do 2 apply well_formed_amap.
    + rewrite Hout. split; discriminate.
  - unfold master_chain. rewrite Hf. cbn [bind]. rewrite Hl.
    split; reflexivity.
Qed.

End ChainFurther.

Lemma master_chain_on_target_witness :
  _highpass (_to_float32_audio (FloatAudio (Arr1 [Fin 1]))) 44100 (Fin 80)
  = Some (Arr1 (hp_loop (Fin (hp_a 44100 80)) (Fin 0) (Fin 0) [Fin 1])) /\
  gain (Fin (-14)) (Fin (-14)) = Fin 1.
Proof.
  assert (Hf : _highpass (_to_float32_audio (FloatAudio (Arr1 [Fin 1])))
                 44100 (Fin 80)
               = Some (Arr1 (hp_loop (Fin (hp_a 44100 80)) (Fin 0) (Fin 0)
                               [Fin 1]))).
  { apply highpass_1d_array. apply hp_coeff_positive; [lia | lra]. }
  split; [exact Hf |].
  exact (proj1 (master_chain_on_target (fun _ _ => Some (Fin (-14)))
                  (FloatAudio (Arr1 [Fin 1])) 44100 (-14) _ Hf eq_refl)).
Defined.


Lemma master_chain_raises_iff_witness :
  (0 < 44100)%Z /\ raw_well_formed (FloatAudio (Arr1 [Fin 1])) /\
  master_chain (fun _ _ => None) (FloatAudio (Arr1 [Fin 1])) 44100 (Fin (-14))
  = None.
Proof.
  assert (Hsr : (0 < 44100)%Z) by lia.
  assert (Hwf : raw_well_formed (FloatAudio (Arr1 [Fin 1]))) by exact I.
  split; [exact Hsr |]. split; [exact Hwf |].
  destruct (master_chain_raises_iff (fun _ _ => None)
              (FloatAudio (Arr1 [Fin 1])) 44100 (Fin (-14)) Hsr Hwf)
    as [filtered [_ Hiff]].
  apply Hiff. reflexivity.
Defined.

(** * Further properties of the endpoint *)

Lemma lower_ascii_idempotent (c : ascii) :
  lower_ascii (lower_ascii c) = lower_ascii c.
Proof.
  destruct c as [[|] [|] [|] [|] [|] [|] [|] [|]]; reflexivity.
Qed.

Lemma lower_idempotent (s : string) : lower (lower s) = lower s.
Proof.
  induction s as [| c s IH]; [reflexivity |].
  cbn [lower]. now rewrite lower_ascii_idempotent, IH.
Qed.

Section EndpointFurther.

Variable integrated_loudness : Z -> ndarray fnum -> option fnum.
Variable sf_read : bytes -> string + (raw_audio * Z).
Variable sf_write : ndarray fnum -> Z -> option bytes.
Variable mp3_export : bytes -> string + bytes.

(** X17: the output format is matched without regard to letter case: a
    request with format [f] is answered exactly as the request with [f]
    in lower case, so "MP3", "Mp3" and "mp3" all select the MP3 export. *)
Theorem master_format_case_insensitive (raw : bytes) (format : string)
    (target_lufs : fnum) :
  master integrated_loudness sf_read sf_write mp3_export
    raw format target_lufs
  = master integrated_loudness sf_read sf_write mp3_export
      raw (lower format) target_lufs /\
  lower "MP3" = "mp3"%string /\ lower "Mp3" = "mp3"%string.
Proof.
  split; [| split; reflexivity].
  unfold master. now rewrite lower_idempotent.
Qed.

(** X18: every response of the endpoint is of one of three kinds: an error
    document with status 400, a WAV file (for every format that is not
    "mp3" in some letter case, unknown formats included), or an MP3 file
    (only for the format "mp3").  No other status or media type occurs. *)
Theorem master_response_kinds (raw : bytes) (format : string)
    (target_lufs : fnum) (r : response) :
  master integrated_loudness sf_read sf_write mp3_export
    raw format target_lufs = Some r ->
  (exists content, r = JSONResponse content 400) \/
  (exists wav_bytes,
     String.eqb (lower format) "mp3" = false /\
     r = Response wav_bytes "audio/wav"
           [("Content-Disposition"%string,
             "attachment; filename=mastered.wav"%string)]) \/
  (exists mp3_bytes,
     String.eqb (lower format) "mp3" = true /\
     r = Response mp3_bytes "audio/mpeg"
           [("Content-Disposition"%string,
             "attachment; filename=mastered.mp3"%string)]).
Proof.
  unfold master. destruct (sf_read raw) as [e | [data sr]].
  - intro H. inversion H. left. eexists. reflexivity.
  - destruct (master_chain integrated_loudness data sr target_lufs)
      as [mastered |]; cbn [bind]; [| discriminate].
    destruct (sf_write mastered sr) as [wav_bytes |]; cbn [bind];
      [| discriminate].
    destruct (String.eqb (lower format) "mp3") eqn:Hfmt.
    + destruct (mp3_export wav_bytes) as [e | mp3_bytes]; intro H;
        inversion H.
      * left. eexists. reflexivity.
      * right. right. now exists mp3_bytes.
    + intro H. inversion H. right. left. now exists wav_bytes.
Qed.

(** X19: the endpoint lets an exception escape exactly when decoding
    succeeded and then the chain or the WAV writer raised; a failed decode
    and a failed MP3 export are always answered, never raised. *)
Theorem master_raises_iff (raw : bytes) (format : string)
    (target_lufs : fnum) :
  master integrated_loudness sf_read sf_write mp3_export
    raw format target_lufs = None <->
  exists data sr,
    sf_read raw = inr (data, sr) /\
    (master_chain integrated_loudness data sr target_lufs = None \/
     exists mastered,
       master_chain integrated_loudness data sr target_lufs = Some mastered /\
       sf_write mastered sr = None).
Proof.
  unfold master. destruct (sf_read raw) as [e | [data sr]].
  - split; [discriminate |]. intros [d [s [H _]]]. discriminate.
  - destruct (master_chain integrated_loudness data sr target_lufs)
      as [mastered |] eqn:Hc; cbn [bind].
    + destruct (sf_write mastered sr) as [wav_bytes |] eqn:Hw; cbn [bind].
      * split.
        -- destruct (String.eqb (lower format) "mp3");
             [destruct (mp3_export wav_bytes) |]; discriminate.
        -- intros [d [s [E [H | [m [Hm Hn]]]]]]; inversion E; subst d s.
           ++ rewrite Hc in H. discriminate.
           ++ rewrite Hc in Hm. inversion Hm; subst m.
              rewrite Hw in Hn. discriminate.
      * split; [| reflexivity]. intros _. exists data, sr.
        split; [reflexivity |]. right. now exists mastered.
    + split; [| reflexivity]. intros _. exists data, sr.
      split; [reflexivity |]. now left.
Qed.

End EndpointFurther.

Lemma master_response_kinds_witness :
  master silence_meter read_silence write_one_byte_each export_same
    [] "flac" NaN
  = Some (Response (map (fun _ => Byte.x00) (flatten nan_buffer)) "audio/wav"
            [("Content-Disposition"%string,
              "attachment; filename=mastered.wav"%string)]) /\
  ((exists content,
      Response (map (fun _ => Byte.x00) (flatten nan_buffer)) "audio/wav"
        [("Content-Disposition"%string,
          "attachment; filename=mastered.wav"%string)]
      = JSONResponse content 400) \/
   (exists wav_bytes,
      String.eqb (lower "flac") "mp3" = false /\
      Response (map (fun _ => Byte.x00) (flatten nan_buffer)) "audio/wav"
        [("Content-Disposition"%string,
          "attachment; filename=mastered.wav"%string)]
      = Response wav_bytes "audio/wav"
          [("Content-Disposition"%string,
            "attachment; filename=mastered.wav"%string)]) \/
   (exists mp3_bytes,
      String.eqb (lower "flac") "mp3" = true /\
      Response (map (fun _ => Byte.x00) (flatten nan_buffer)) "audio/wav"
        [("Content-Disposition"%string,
          "attachment; filename=mastered.wav"%string)]
      = Response mp3_bytes "audio/mpeg"
          [("Content-Disposition"%string,
            "attachment; filename=mastered.mp3"%string)])).
Proof.
  assert (H : master silence_meter read_silence write_one_byte_each export_same
                [] "flac" NaN
              = Some (Response (map (fun _ => Byte.x00) (flatten nan_buffer))
                        "audio/wav"
                        [("Content-Disposition"%string,
                          "attachment; filename=mastered.wav"%string)])).
  { unfold master. cbn [read_silence].
    rewrite master_chain_silence_nan_target. reflexivity. }
  split; [exact H |].
  exact (master_response_kinds silence_meter read_silence write_one_byte_each
           export_same [] "flac" NaN _ H).
Defined.

Lemma gain_laws_witness :
  -14 < -8 /\
  Rpower 10 ((-14 - -20) / 20) < Rpower 10 ((-8 - -20) / 20).
Proof.
  split; [lra |].
  destruct (gain_laws (-14) (-20)) as [_ [_ [_ [Hmono _]]]].
  apply Hmono. lra.
Defined.
